(** * invpa: the document-to-invoice extraction pipeline

    A shallow embedding of package [invoice] (types, [ProcessFile],
    [groupPagesByInvoice], [analyzeInvoicePages], [selectPagesForAnalysis],
    [FindCounterparty], [mergeCounterparties]) and of the two orchestrators
    that drive it ([cmd/reporter] and [cmd/web]).

    Conventions.
    - Go's [int] is modelled as [Z]: page ordinals are only compared, stored
      and used as slice indices, never computed with.
    - Go's [error] is modelled by its message: [option string], [None]
      being [nil].  [fmt.Errorf] is string concatenation.
    - A call to the OpenAI client followed by [json.Unmarshal] is an external
      event; its four possible outcomes are the constructors of [ChatReply],
      and the replies of a run are supplied by a [World].
    - A run-time panic (index out of range) is the constructor [Fault] of
      [Outcome]. *)

From stdpp Require Import gmap strings list sorting pretty.

Local Open Scope string_scope.
Local Open Scope list_scope.
Local Open Scope Z_scope.

(** ** Data model ([invoice/invoice.go]) *)

(** [float64] values are only carried from the reply into the result; they
    are represented by their IEEE-754 bit pattern. *)
Definition float64 := Z.

Record Counterparty := mkCounterparty {
  ID : string;
  Name : string;
  VAT : string;
  Country : string;
  Address : string;
  SWIFT : string;
  IBAN : string;
  Phone : string;
  Fax : string;
  Email : string;
  Website : string
}.

Record Invoice := mkInvoice {
  Type_ : Z;
  Number : string;
  Date : string;
  TotalAmount : float64;
  TaxAmount : float64;
  Purpose : string;
  InvCounterparty : Counterparty
}.

(** ** PageSelector ([selectPagesForAnalysis]) *)

(** [sort.Ints]: the ascending rearrangement of a slice of ints.  On ints
    the result of any correct sort is the same list. *)
Definition sort_Ints (a : list Z) : list Z := merge_sort Z.le a.

(** Reading [selected[idx]] in a [map[int]bool]: a missing key reads as
    [false]. *)
Definition selected_get (selected : gmap Z bool) (idx : Z) : bool :=
  default false (selected !! idx).

(** The body shared by the two [for _, idx := range ...] loops:
    [if !selected[idx] { selected[idx] = true; result = append(result, idx) }]. *)
Definition addIfNew (st : gmap Z bool * list Z) (idx : Z) : gmap Z bool * list Z :=
  if negb (selected_get st.1 idx)
  then (<[idx := true]> st.1, st.2 ++ [idx])
  else st.

Definition selectPagesForAnalysis (pageIndices : list Z) : list Z :=
  if decide (length pageIndices ≤ 4)%nat then pageIndices
  else
    let pageIndices := sort_Ints pageIndices in
    let st0 : gmap Z bool * list Z := (∅, []) in
    let st1 := foldl addIfNew st0 (take 2 pageIndices) in
    let st2 := foldl addIfNew st1 (drop (length pageIndices - 2) pageIndices) in
    sort_Ints st2.2.

(** ** External events *)

(** One page image: the raw bytes of a rendered page. *)
Abbreviation PageImage := (list Byte.byte) (only parsing).

(** What one [client.CreateChatCompletion] call followed by
    [json.Unmarshal] of [resp.Choices[0].Message.Content] can yield. *)
Inductive ChatReply (A : Type) : Type :=
| RequestFailed (err : string)      (* the call returned [err != nil] *)
| NoChoices                         (* [len(resp.Choices) == 0] *)
| BadJSON (err content : string)    (* [json.Unmarshal] returned [err != nil] *)
| Answer (a : A).                   (* the content parsed into [a] *)
Arguments RequestFailed {A} err.
Arguments NoChoices {A}.
Arguments BadJSON {A} err content.
Arguments Answer {A} a.

(** The anonymous [MatchResponse] struct of [FindCounterparty]. *)
Record MatchResponse := mkMatchResponse {
  MatchFound : bool;
  MatchedID : string
}.

(** A Go call either returns or panics; [Fault] names the kind of run-time
    error, not Go's full message. *)
Inductive Outcome (A : Type) : Type :=
| Fault (msg : string)
| Done (a : A).
Arguments Fault {A} msg.
Arguments Done {A} a.

(** Everything outside the program that a run depends on.  The [nat]
    argument of a reply numbers the calls of that kind made so far, so that
    two identical requests may be answered differently.  [rangeOrder] is the
    order in which [for ... range] visits a map: Go leaves it unspecified,
    so it is any enumeration of the entries. *)
Record World := mkWorld {
  extOf : string → string;
    (* [strings.ToLower(filepath.Ext(filePath))] *)
  pdftoppm : string → string → list PageImage * option string;
    (* [convertPDFToImages(pdfPath, popplerBinPath)] *)
  osReadFile : string → PageImage * option string;
  chatGrouping : list PageImage → ChatReply (gmap string (list Z));
  chatAnalysis : nat → Counterparty → list PageImage → ChatReply Invoice;
  chatMatching : nat → list Counterparty → Counterparty → ChatReply MatchResponse;
  uuidNew : nat → string;
  rangeOrder : gmap string (list Z) → list (string * list Z);
  rangeOrder_perm : ∀ m, rangeOrder m ≡ₚ map_to_list m
}.

(** ** InvoiceGrouper ([groupPagesByInvoice]) *)

Definition groupPagesByInvoice (w : World) (imageContents : list PageImage)
  : gmap string (list Z) * option string :=
  match chatGrouping w imageContents with
  | RequestFailed err =>
      (∅, Some ("grouping request to OpenAI failed: " +:+ err))
  | NoChoices =>
      (∅, Some "OpenAI returned no choices for grouping")
  | BadJSON err content =>
      (∅, Some ("failed to unmarshal grouping response: " +:+ err
                +:+ ". Response: " +:+ content))
  | Answer groups => (groups, None)
  end.

(** The fallback of [ProcessFile]:
    [pageGroups = map[string][]int{"single_invoice": {}}] followed by
    [for i := range imageContents { pageGroups["single_invoice"] =
     append(pageGroups["single_invoice"], i) }]. *)
Definition singleInvoiceGroups (imageContents : list PageImage)
  : gmap string (list Z) :=
  foldl (λ (pageGroups : gmap string (list Z)) i,
           <["single_invoice" :=
               default [] (pageGroups !! "single_invoice") ++ [i]]> pageGroups)
        {["single_invoice" := []]}
        (seqZ 0 (Z.of_nat (length imageContents))).

(** Step 2 of [ProcessFile]: the grouping call and its fallback. *)
Definition pageGroupsFor (w : World) (imageContents : list PageImage)
  : gmap string (list Z) :=
  match groupPagesByInvoice w imageContents with
  | (pageGroups, None) => pageGroups
  | (_, Some _) => singleInvoiceGroups imageContents
  end.

(** ** InvoiceExtractor ([analyzeInvoicePages]) *)

Definition analyzeInvoicePages (w : World) (call : nat)
    (imageContents : list PageImage) (myCompany : Counterparty)
  : option Invoice * option string :=
  match chatAnalysis w call myCompany imageContents with
  | RequestFailed err =>
      (None, Some ("detailed analysis request to OpenAI failed: " +:+ err))
  | NoChoices =>
      (None, Some "OpenAI returned no choices for detailed analysis")
  | BadJSON err content =>
      (None, Some ("failed to unmarshal detailed analysis response: " +:+ err
                   +:+ ". Response: " +:+ content))
  | Answer invoice => (Some invoice, None)
  end.

(** ** ProcessFile *)

(** [imageContents[pageIndex]]: Go checks the bounds and panics outside
    them. *)
Definition imageAt (imageContents : list PageImage) (pageIndex : Z)
  : Outcome PageImage :=
  if decide (0 ≤ pageIndex < Z.of_nat (length imageContents)) then
    match imageContents !! Z.to_nat pageIndex with
    | Some content => Done content
    | None => Fault "index out of range"
    end
  else Fault "index out of range".

(** [for _, pageIndex := range pagesToAnalyze { imagesToAnalyze =
    append(imagesToAnalyze, imageContents[pageIndex]) }]. *)
Fixpoint collectImages (imageContents : list PageImage)
    (pagesToAnalyze : list Z) (imagesToAnalyze : list PageImage)
  : Outcome (list PageImage) :=
  match pagesToAnalyze with
  | [] => Done imagesToAnalyze
  | pageIndex :: rest =>
      match imageAt imageContents pageIndex with
      | Fault msg => Fault msg
      | Done content =>
          collectImages imageContents rest (imagesToAnalyze ++ [content])
      end
  end.

(** Step 3 of [ProcessFile]: the loop over the page groups, in the order
    [visit] in which [range] yields them.  [call] counts the detailed
    analysis requests issued so far. *)
Fixpoint analyzeGroups (w : World) (imageContents : list PageImage)
    (myCompany : Counterparty) (visit : list (string * list Z))
    (call : nat) (finalInvoices : list Invoice) : Outcome (list Invoice) :=
  match visit with
  | [] => Done finalInvoices
  | (invoiceID, pageIndices) :: rest =>
      let pagesToAnalyze := selectPagesForAnalysis pageIndices in
      match collectImages imageContents pagesToAnalyze [] with
      | Fault msg => Fault msg
      | Done imagesToAnalyze =>
          match analyzeInvoicePages w call imagesToAnalyze myCompany with
          | (_, Some err) => (* [continue] *)
              analyzeGroups w imageContents myCompany rest (S call)
                            finalInvoices
          | (Some invoice, None) =>
              analyzeGroups w imageContents myCompany rest (S call)
                            (finalInvoices ++ [invoice])
          | (None, None) => Fault "nil pointer dereference"
          end
      end
  end.

(** Step 1 of [ProcessFile]: the page images of the file. *)
Definition loadImages (w : World) (filePath popplerPath : string)
  : list PageImage * option string :=
  let ext := extOf w filePath in
  if decide (ext = ".pdf") then
    match pdftoppm w filePath popplerPath with
    | (_, Some err) => ([], Some ("failed to convert PDF to images: " +:+ err))
    | (imageContents, None) => (imageContents, None)
    end
  else if decide (ext = ".png" ∨ ext = ".jpg" ∨ ext = ".jpeg") then
    match osReadFile w filePath with
    | (_, Some err) => ([], Some ("failed to read image file: " +:+ err))
    | (content, None) => ([] ++ [content], None)
    end
  else ([], Some ("unsupported file type: " +:+ ext)).

Definition ProcessFile (w : World) (filePath apiKey popplerPath : string)
    (myCompany : Counterparty) : Outcome (list Invoice * option string) :=
  match loadImages w filePath popplerPath with
  | (_, Some err) => Done ([], Some err)
  | (imageContents, None) =>
      if decide (length imageContents = 0%nat) then
        Done ([], Some "no images found to process")
      else
        let pageGroups := pageGroupsFor w imageContents in
        match analyzeGroups w imageContents myCompany
                            (rangeOrder w pageGroups) 0 [] with
        | Fault msg => Fault msg
        | Done finalInvoices => Done (finalInvoices, None)
        end
  end.

(** ** CounterpartyMatcher ([mergeCounterparties], [FindCounterparty]) *)

(** Field assignments [merged.F = v] on a [Counterparty] value. *)
Definition set_VAT (v : string) (c : Counterparty) : Counterparty :=
  mkCounterparty (ID c) (Name c) v (Country c) (Address c) (SWIFT c)
                 (IBAN c) (Phone c) (Fax c) (Email c) (Website c).
Definition set_SWIFT (v : string) (c : Counterparty) : Counterparty :=
  mkCounterparty (ID c) (Name c) (VAT c) (Country c) (Address c) v
                 (IBAN c) (Phone c) (Fax c) (Email c) (Website c).
Definition set_IBAN (v : string) (c : Counterparty) : Counterparty :=
  mkCounterparty (ID c) (Name c) (VAT c) (Country c) (Address c) (SWIFT c)
                 v (Phone c) (Fax c) (Email c) (Website c).
Definition set_Phone (v : string) (c : Counterparty) : Counterparty :=
  mkCounterparty (ID c) (Name c) (VAT c) (Country c) (Address c) (SWIFT c)
                 (IBAN c) v (Fax c) (Email c) (Website c).
Definition set_Fax (v : string) (c : Counterparty) : Counterparty :=
  mkCounterparty (ID c) (Name c) (VAT c) (Country c) (Address c) (SWIFT c)
                 (IBAN c) (Phone c) v (Email c) (Website c).
Definition set_Email (v : string) (c : Counterparty) : Counterparty :=
  mkCounterparty (ID c) (Name c) (VAT c) (Country c) (Address c) (SWIFT c)
                 (IBAN c) (Phone c) (Fax c) v (Website c).
Definition set_Website (v : string) (c : Counterparty) : Counterparty :=
  mkCounterparty (ID c) (Name c) (VAT c) (Country c) (Address c) (SWIFT c)
                 (IBAN c) (Phone c) (Fax c) (Email c) v.
Definition set_ID (v : string) (c : Counterparty) : Counterparty :=
  mkCounterparty v (Name c) (VAT c) (Country c) (Address c) (SWIFT c)
                 (IBAN c) (Phone c) (Fax c) (Email c) (Website c).

(** [if merged.F is empty and newData.F is not { merged.F = newData.F }];
    [EmptyString] is the empty string literal of the source. *)
Definition fillIfEmpty (get : Counterparty → string)
    (set : string → Counterparty → Counterparty)
    (newData merged : Counterparty) : Counterparty :=
  if bool_decide (get merged = EmptyString)
     && bool_decide (get newData ≠ EmptyString)
  then set (get newData) merged
  else merged.

Definition mergeCounterparties (existing newData : Counterparty) : Counterparty :=
  let merged := existing in
  let merged := fillIfEmpty VAT set_VAT newData merged in
  let merged := fillIfEmpty SWIFT set_SWIFT newData merged in
  let merged := fillIfEmpty IBAN set_IBAN newData merged in
  let merged := fillIfEmpty Phone set_Phone newData merged in
  let merged := fillIfEmpty Fax set_Fax newData merged in
  let merged := fillIfEmpty Email set_Email newData merged in
  let merged := fillIfEmpty Website set_Website newData merged in
  merged.

(** The error returned when the service names an id that is not in the
    list it was given (the spec's [MatchInconsistency]). *)
Definition MatchInconsistency (matchedID : string) : string :=
  "AI found a match with ID '" +:+ matchedID
  +:+ "' but this ID does not exist in the provided list".

(** [for _, existing := range existingCounterparties { if existing.ID ==
    match.MatchedID { return merged } }]; [None] when the loop runs out. *)
Fixpoint mergeWithMatched (existingCounterparties : list Counterparty)
    (newCounterparty : Counterparty) (matchedID : string)
  : option Counterparty :=
  match existingCounterparties with
  | [] => None
  | existing :: rest =>
      if decide (ID existing = matchedID)
      then Some (mergeCounterparties existing newCounterparty)
      else mergeWithMatched rest newCounterparty matchedID
  end.

(** [client] answers the one request the function may issue; it is not
    consulted when the list is empty.  [json.Marshal] cannot fail on a
    struct of strings, so those two error returns are unreachable. *)
Definition FindCounterparty
    (client : list Counterparty → Counterparty → ChatReply MatchResponse)
    (existingCounterparties : list Counterparty)
    (newCounterparty : Counterparty) : option Counterparty * option string :=
  if decide (length existingCounterparties = 0%nat) then (None, None)
  else
    match client existingCounterparties newCounterparty with
    | RequestFailed err =>
        (None, Some ("matching request to OpenAI failed: " +:+ err))
    | NoChoices =>
        (None, Some "OpenAI returned no choices for matching")
    | BadJSON err content =>
        (None, Some ("failed to unmarshal matching response: " +:+ err
                     +:+ ". Response: " +:+ content))
    | Answer match_ =>
        if MatchFound match_ then
          match mergeWithMatched existingCounterparties newCounterparty
                                 (MatchedID match_) with
          | Some updatedCounterparty => (Some updatedCounterparty, None)
          | None => (None, Some (MatchInconsistency (MatchedID match_)))
          end
        else (None, None)
    end.

(** ** PipelineOrchestrator *)

(** [Result] and [UniqueCounterparty], declared alike by both commands.
    [Invoice_] is the [*invoice.Invoice] field, [None] being [nil]. *)
Record Result := mkResult {
  SourceFile : string;
  Invoice_ : option Invoice;
  ErrorMessage : string
}.

Record UniqueCounterparty := mkUniqueCounterparty {
  FirstSeenIn : string;       (* field [SourceFile] *)
  Counterparty_ : Counterparty
}.

(** The variables of the collecting loop (step 5 of [main]), with the lines
    logged so far. *)
Record Tally := mkTally {
  allResults : list Result;
  uniqueCounterparties : list UniqueCounterparty;
  existingForSearch : list Counterparty;
  successfulCount : Z;
  errorCount : Z;
  logged : list string
}.

Definition emptyTally : Tally := mkTally [] [] [] 0 0 [].

(** [res.Invoice.Counterparty = c], seen through the pointer. *)
Definition withCounterparty (c : Counterparty) (invoice : Invoice) : Invoice :=
  mkInvoice (Type_ invoice) (Number invoice) (Date invoice)
            (TotalAmount invoice) (TaxAmount invoice) (Purpose invoice) c.

(** Running a loop body over a list, stopping at a panic. *)
Fixpoint forEach {S A : Type} (body : S → A → Outcome S) (st : S) (l : list A)
  : Outcome S :=
  match l with
  | [] => Done st
  | x :: rest =>
      match body st x with
      | Fault msg => Fault msg
      | Done st' => forEach body st' rest
      end
  end.

(** *** [cmd/reporter] *)
Module Reporter.

(** The body of the goroutine started for each file (step 4). *)
Definition worker (w : World) (apiKey popplerPath : string)
    (myCompany : Counterparty) (f : string) : Outcome Result :=
  match ProcessFile w f apiKey popplerPath myCompany with
  | Fault msg => Fault msg
  | Done (_, Some err) => Done (mkResult f None err)
  | Done (invoices, None) =>
      match invoices with
      | invoice0 :: _ => Done (mkResult f (Some invoice0) EmptyString)
      | [] => Done (mkResult f None "No invoices found in file")
      end
  end.

(** One iteration of [for res := range resultsChan].  The entry appended to
    [allResults] shares its invoice with [res] through a pointer, so it shows
    the counterparty written later in the iteration.  The matching request
    is numbered by the results handled before it. *)
Definition collect (w : World) (st : Tally) (res : Result) : Outcome Tally :=
  if decide (ErrorMessage res ≠ EmptyString) then
    Done (mkTally (allResults st ++ [res]) (uniqueCounterparties st)
                  (existingForSearch st) (successfulCount st)
                  (errorCount st + 1) (logged st))
  else
    match Invoice_ res with
    | None => Fault "nil pointer dereference"
    | Some invoice =>
        let call := length (allResults st) in
        match FindCounterparty (chatMatching w call) (existingForSearch st)
                               (InvCounterparty invoice) with
        | (_, Some err) =>
            Done (mkTally
              (allResults st ++ [res])
              (uniqueCounterparties st ++
                 [mkUniqueCounterparty (SourceFile res) (InvCounterparty invoice)])
              (existingForSearch st ++ [InvCounterparty invoice])
              (successfulCount st + 1) (errorCount st)
              (logged st ++ ["WARN: Could not match counterparty for "
                             +:+ SourceFile res +:+ ": " +:+ err]))
        | (Some matched, None) =>
            Done (mkTally
              (allResults st ++
                 [mkResult (SourceFile res)
                           (Some (withCounterparty matched invoice))
                           (ErrorMessage res)])
              (uniqueCounterparties st) (existingForSearch st)
              (successfulCount st + 1) (errorCount st) (logged st))
        | (None, None) =>
            Done (mkTally
              (allResults st ++ [res])
              (uniqueCounterparties st ++
                 [mkUniqueCounterparty (SourceFile res) (InvCounterparty invoice)])
              (existingForSearch st ++ [InvCounterparty invoice])
              (successfulCount st + 1) (errorCount st) (logged st))
        end
    end.

Definition collectAll (w : World) (results : list Result) : Outcome Tally :=
  forEach (collect w) emptyTally results.

End Reporter.

(** *** [cmd/web] ([processInvoices]) *)
Module Web.

(** One iteration of the same loop in [processInvoices].  Every
    counterparty that is registered first receives [uuid.New().String()];
    the identifiers are numbered by the entries registered before. *)
Definition collect (w : World) (st : Tally) (res : Result) : Outcome Tally :=
  if decide (ErrorMessage res ≠ EmptyString) then
    Done (mkTally (allResults st ++ [res]) (uniqueCounterparties st)
                  (existingForSearch st) (successfulCount st)
                  (errorCount st + 1)
                  (logged st ++ ["Error in " +:+ SourceFile res +:+ ": "
                                 +:+ ErrorMessage res]))
  else
    match Invoice_ res with
    | None => Fault "nil pointer dereference"
    | Some invoice =>
        let call := length (allResults st) in
        let newID := uuidNew w (length (uniqueCounterparties st)) in
        let registered := set_ID newID (InvCounterparty invoice) in
        match FindCounterparty (chatMatching w call) (existingForSearch st)
                               (InvCounterparty invoice) with
        | (_, Some err) =>
            Done (mkTally
              (allResults st ++
                 [mkResult (SourceFile res)
                           (Some (withCounterparty registered invoice))
                           (ErrorMessage res)])
              (uniqueCounterparties st ++
                 [mkUniqueCounterparty (SourceFile res) registered])
              (existingForSearch st ++ [registered])
              (successfulCount st + 1) (errorCount st)
              (logged st ++ ["WARN: Could not match counterparty for "
                             +:+ SourceFile res +:+ ": " +:+ err]))
        | (Some matched, None) =>
            Done (mkTally
              (allResults st ++
                 [mkResult (SourceFile res)
                           (Some (withCounterparty matched invoice))
                           (ErrorMessage res)])
              (uniqueCounterparties st) (existingForSearch st)
              (successfulCount st + 1) (errorCount st) (logged st))
        | (None, None) =>
            Done (mkTally
              (allResults st ++
                 [mkResult (SourceFile res)
                           (Some (withCounterparty registered invoice))
                           (ErrorMessage res)])
              (uniqueCounterparties st ++
                 [mkUniqueCounterparty (SourceFile res) registered])
              (existingForSearch st ++ [registered])
              (successfulCount st + 1) (errorCount st) (logged st))
        end
    end.

Definition collectAll (w : World) (results : list Result) : Outcome Tally :=
  forEach (collect w) emptyTally results.

(** The job store: [var jobs = make(map[string]*Job)].  The mutex only
    serialises the accesses; each function below is one critical section. *)
Record Job := mkJob {
  JobID : string;                 (* field [ID] *)
  Status : string;
  Log : list string;
  Error : string;
  ResultPath : string;
  DownloadURL : string;
  TotalFiles : Z;
  ProcessedFiles : Z;
  AllResults : list Result;
  UniqueCounterparties : list UniqueCounterparty
}.

(** Go's [int] addition on a 64-bit platform. *)
Definition int_add (a b : Z) : Z :=
  (a + b + 2 ^ 63) `mod` 2 ^ 64 - 2 ^ 63.

(** [if job, ok := jobs[jobID]; ok { job.Log = append(job.Log, message) }]. *)
Definition addLog (jobs : gmap string Job) (jobID message : string)
  : gmap string Job :=
  match jobs !! jobID with
  | Some job =>
      <[jobID := mkJob (JobID job) (Status job) (Log job ++ [message])
                       (Error job) (ResultPath job) (DownloadURL job)
                       (TotalFiles job) (ProcessedFiles job)
                       (AllResults job) (UniqueCounterparties job)]> jobs
  | None => jobs
  end.

Definition incrementProcessedCount (jobs : gmap string Job) (jobID : string)
  : gmap string Job :=
  match jobs !! jobID with
  | Some job =>
      <[jobID := mkJob (JobID job) (Status job) (Log job)
                       (Error job) (ResultPath job) (DownloadURL job)
                       (TotalFiles job) (int_add (ProcessedFiles job) 1)
                       (AllResults job) (UniqueCounterparties job)]> jobs
  | None => jobs
  end.

Definition setJobError (jobs : gmap string Job) (jobID errorMsg : string)
  : gmap string Job :=
  match jobs !! jobID with
  | Some job =>
      <[jobID := mkJob (JobID job) "Error" (Log job ++ ["[ERROR] " +:+ errorMsg])
                       errorMsg (ResultPath job) (DownloadURL job)
                       (TotalFiles job) (ProcessedFiles job)
                       (AllResults job) (UniqueCounterparties job)]> jobs
  | None => jobs
  end.



(** The calls the worker goroutines and [processInvoices] make on the
    store while a job runs. *)
Inductive StoreCall :=
| CallAddLog (jobID message : string)
| CallIncrementProcessedCount (jobID : string)
| CallSetJobError (jobID errorMsg : string).

Definition call (jobs : gmap string Job) (c : StoreCall) : gmap string Job :=
  match c with
  | CallAddLog jobID message => addLog jobs jobID message
  | CallIncrementProcessedCount jobID => incrementProcessedCount jobs jobID
  | CallSetJobError jobID errorMsg => setJobError jobs jobID errorMsg
  end.

End Web.

(** ** Slices and their backing arrays

    [selectPagesForAnalysis] once more, this time with Go's slices made
    explicit: a slice is a window on a backing array held in a store, and
    two slices on the same array share their elements. *)
Module SliceStore.

Record slice := mkSlice {
  array : nat;     (* which backing array *)
  offset : nat;    (* index of the first element in it *)
  len : nat;
  cap : nat
}.

Definition well_formed (h : gmap nat (list Z)) (s : slice) : Prop :=
  ∃ a, h !! array s = Some a ∧ (len s ≤ cap s)%nat
       ∧ (offset s + cap s ≤ length a)%nat.

(** The elements seen through [s]. *)
Definition elems (h : gmap nat (list Z)) (s : slice) : list Z :=
  take (len s) (drop (offset s) (default [] (h !! array s))).

(** Overwriting the window of [s] with [vs] (of the window's length). *)
Definition overwrite (h : gmap nat (list Z)) (s : slice) (vs : list Z)
  : gmap nat (list Z) :=
  alter (λ a, take (offset s) a ++ vs ++ drop (offset s + length vs) a)
        (array s) h.

(** [sort.Ints(s)] sorts in place. *)
Definition sortInts (h : gmap nat (list Z)) (s : slice) : gmap nat (list Z) :=
  overwrite h s (sort_Ints (elems h s)).

(** [s[lo:hi]]. *)
Definition reslice (s : slice) (lo hi : nat) : slice :=
  mkSlice (array s) (offset s + lo) (hi - lo) (cap s - lo).

(** A slice on a newly allocated array holding [vs]: what [result] is after
    [result := []int{}] and the appends of the two loops. *)
Definition allocate (h : gmap nat (list Z)) (vs : list Z)
  : gmap nat (list Z) * slice :=
  let a := fresh (dom h) in
  (<[a := vs]> h, mkSlice a 0 (length vs) (length vs)).

Definition selectPagesForAnalysis (h : gmap nat (list Z)) (pageIndices : slice)
  : gmap nat (list Z) * slice :=
  if decide (len pageIndices ≤ 4)%nat then (h, pageIndices)
  else
    let h := sortInts h pageIndices in
    let st0 : gmap Z bool * list Z := (∅, []) in
    let st1 := foldl addIfNew st0 (elems h (reslice pageIndices 0 2)) in
    let st2 := foldl addIfNew st1
                 (elems h (reslice pageIndices (len pageIndices - 2)
                                   (len pageIndices))) in
    let '(h, result) := allocate h st2.2 in
    (sortInts h result, result).

End SliceStore.

(** ** Vocabulary of the statements *)

(** Following the spec's words: "{min1, min2, max2, max1} of the input
    set", the two lowest and the two highest ordinals of a group. *)
Definition minimum (l : list Z) : Z := foldr Z.min (hd 0 l) l.
Definition maximum (l : list Z) : Z := foldr Z.max (hd 0 l) l.
Definition min1 (l : list Z) : Z := minimum l.
Definition min2 (l : list Z) : Z := minimum (filter (λ x, x ≠ min1 l) l).
Definition max1 (l : list Z) : Z := maximum l.
Definition max2 (l : list Z) : Z := maximum (filter (λ x, x ≠ max1 l) l).

(** How many distinct ordinals a group has, and how often one occurs. *)
Definition distinct (l : list Z) : nat := length (remove_dups l).
Definition occurrences (x : Z) (l : list Z) : nat :=
  length (filter (λ y, y = x) l).

(** Every ordinal of every group is a page of the document. *)
Definition ordinals_in_range (imageContents : list PageImage)
    (pageGroups : gmap string (list Z)) : Prop :=
  map_Forall (λ _ pageIndices,
                Forall (λ i, 0 ≤ i < Z.of_nat (length imageContents)) pageIndices)
             pageGroups.

(** The images of the pages [pages], when all are in range. *)
Definition pagesAt (imageContents : list PageImage) (pages : list Z)
  : list PageImage :=
  (λ i, default [] (imageContents !! Z.to_nat i)) <$> pages.

(** What the group visited as number [k] contributes: its invoice if its
    own detailed analysis succeeds, nothing otherwise. *)
Definition groupInvoice (w : World) (imageContents : list PageImage)
    (myCompany : Counterparty) (k : nat) (entry : string * list Z)
  : option Invoice :=
  match analyzeInvoicePages w k
          (pagesAt imageContents (selectPagesForAnalysis entry.2))
          myCompany with
  | (Some invoice, None) => Some invoice
  | _ => None
  end.

(** ** Sample runs

    Concrete worlds on which the statements below are exercised.  A sample
    world renders every file to the given pages, answers every request
    of a kind from the given table, and visits maps in key order. *)
Definition sampleWorld (ext : string) (pages : list PageImage)
    (grouping : ChatReply (gmap string (list Z)))
    (analysis : nat → ChatReply Invoice)
    (matching : nat → ChatReply MatchResponse) : World :=
  {| extOf := λ _, ext;
     pdftoppm := λ _ _, (pages, None);
     osReadFile := λ _, (default [] (head pages), None);
     chatGrouping := λ _, grouping;
     chatAnalysis := λ k _ _, analysis k;
     chatMatching := λ k _ _, matching k;
     uuidNew := λ k, "uuid-" +:+ pretty k;
     rangeOrder := map_to_list;
     rangeOrder_perm := λ m, reflexivity (map_to_list m) |}.

Definition acme : Counterparty :=
  mkCounterparty EmptyString "ACME Ltd" "GB123" "UK" "1 High St" EmptyString
                 EmptyString EmptyString EmptyString EmptyString EmptyString.
Definition acmeInc : Counterparty :=
  mkCounterparty EmptyString "ACME Inc." EmptyString "UK" "1 High Street"
                 EmptyString "GB00ACME" EmptyString EmptyString
                 "billing@acme.example" EmptyString.
Definition us : Counterparty :=
  mkCounterparty EmptyString "Our Company" "DE999" "DE" "Hauptstr. 1"
                 EmptyString EmptyString EmptyString EmptyString EmptyString
                 EmptyString.
Definition inv1 : Invoice := mkInvoice 1 "INV-1" "2024-01-02" 100 0 "goods" acme.
Definition inv2 : Invoice := mkInvoice 2 "R-7" "2024-02-03" 25 5 "fuel" acmeInc.

Definition page (b : Byte.byte) : PageImage := [b].
Definition sixPages : list PageImage :=
  [page Byte.x00; page Byte.x01; page Byte.x02;
   page Byte.x03; page Byte.x04; page Byte.x05].

(** Grouping is unavailable; the detailed analysis answers. *)
Definition worldGroupingDown : World :=
  sampleWorld ".pdf" sixPages (RequestFailed "connection reset")
              (λ _, Answer inv1) (λ _, NoChoices).

(** A one-page image for which the service names page 1. *)
Definition worldStrayOrdinal : World :=
  sampleWorld ".png" [page Byte.x00] (Answer {["INV-1" := [1]]})
              (λ _, Answer inv1) (λ _, NoChoices).

(** Two groups; the analysis of the group visited first fails. *)
Definition worldOneGroupFails : World :=
  sampleWorld ".pdf" sixPages
              (Answer (<["B" := [3; 4; 5]]> {["A" := [0; 1; 2]]}))
              (λ k, if decide (k = 0%nat) then BadJSON "unexpected end of JSON input" "{"
                    else Answer inv2)
              (λ _, NoChoices).

(** Two groups; every detailed analysis fails. *)
Definition worldAllGroupsFail : World :=
  sampleWorld ".pdf" sixPages
              (Answer (<["B" := [3; 4; 5]]> {["A" := [0; 1; 2]]}))
              (λ _, RequestFailed "status code: 429") (λ _, NoChoices).

(** The matching service is down. *)
Definition worldMatchingDown : World :=
  sampleWorld ".pdf" sixPages (Answer ∅) (λ _, Answer inv1)
              (λ _, RequestFailed "connection reset").

(** ** Further vocabulary *)

(** What the two loops of the selector keep true: [result] has no
    repetition and [selected] marks exactly its elements. *)
Definition addIfNew_inv (st : gmap Z bool * list Z) : Prop :=
  NoDup st.2 ∧ ∀ x, selected_get st.1 x = true ↔ x ∈ st.2.

(** The first of two strings that is not empty. *)
Definition firstNonEmpty (a b : string) : string :=
  if decide (a = EmptyString) then b else a.

(** A result as the workers produce it: it carries an invoice exactly when
    its error message is empty. *)
Definition resultComplete (res : Result) : Prop :=
  ErrorMessage res = EmptyString ↔ is_Some (Invoice_ res).

(** Results with and without an error message. *)
Definition failed (res : Result) : Prop := ErrorMessage res ≠ EmptyString.
Definition succeeded (res : Result) : Prop := ErrorMessage res = EmptyString.

(** The registration of the counterparty of [res] as it was extracted. *)
Definition registration (res : Result) (invoice : Invoice) : UniqueCounterparty :=
  mkUniqueCounterparty (SourceFile res) (InvCounterparty invoice).

#[global] Instance failed_dec (res : Result) : Decision (failed res).
Proof. unfold failed. apply _. Defined.

#[global] Instance succeeded_dec (res : Result) : Decision (succeeded res).
Proof. unfold succeeded. apply _. Defined.

(** A result that the collecting loop cannot handle: no error message and
    no invoice either. *)
Definition hollow (res : Result) : Prop :=
  ErrorMessage res = EmptyString ∧ Invoice_ res = None.

(** The registrations the loop makes when no result is ever matched: one
    per successful result, in order. *)
Definition registrations (results : list Result) : list UniqueCounterparty :=
  omap (λ res, if decide (succeeded res)
               then registration res <$> Invoice_ res else None) results.

(** Two results as the workers send them, and the tally the reporter ends
    with when the matching service is down. *)
Definition twoResults : list Result :=
  [mkResult "a.pdf" (Some inv1) EmptyString;
   mkResult "b.pdf" (Some inv2) EmptyString].

Definition tallyMatchingDown : Tally :=
  mkTally twoResults
          [mkUniqueCounterparty "a.pdf" acme;
           mkUniqueCounterparty "b.pdf" acmeInc]
          [acme; acmeInc] 2 0
          ["WARN: Could not match counterparty for b.pdf: matching request to OpenAI failed: connection reset"].

(** What the web job keeps true of its tally: the registry is the list of
    counterparties of [uniqueCounterparties], the k-th entry carries the
    k-th identifier generated, and every successful result recorded so far
    names a counterparty whose id is in the registry. *)
Definition Web_tally_ok (w : World) (st : Tally) : Prop :=
  existingForSearch st = Counterparty_ <$> uniqueCounterparties st ∧
  ID <$> existingForSearch st
    = uuidNew w <$> seq 0 (length (uniqueCounterparties st)) ∧
  ∀ res invoice, res ∈ allResults st → succeeded res →
    Invoice_ res = Some invoice →
    ID (InvCounterparty invoice) ∈ ID <$> existingForSearch st.

(** The tally the web job ends with on the same two results. *)
Definition webTallyMatchingDown : Tally :=
  mkTally
    [mkResult "a.pdf" (Some (withCounterparty (set_ID "uuid-0" acme) inv1))
              EmptyString;
     mkResult "b.pdf" (Some (withCounterparty (set_ID "uuid-1" acmeInc) inv2))
              EmptyString]
    [mkUniqueCounterparty "a.pdf" (set_ID "uuid-0" acme);
     mkUniqueCounterparty "b.pdf" (set_ID "uuid-1" acmeInc)]
    [set_ID "uuid-0" acme; set_ID "uuid-1" acmeInc] 2 0
    ["WARN: Could not match counterparty for b.pdf: matching request to OpenAI failed: connection reset"].

(** ** PageRenderer ([convertPDFToImages])

    The function body over an explicit file system.  The deferred
    [os.RemoveAll(tempDir)] does not bear on what is returned and is left
    out. *)
Module Renderer.

(** An [os.DirEntry], as far as the function looks at it. *)
Record DirEntry := mkDirEntry {
  EntryName : string;    (* [file.Name()] *)
  IsDir : bool           (* [file.IsDir()] *)
}.

Record FileSystem := mkFileSystem {
  MkdirTemp : string * option string;
    (* [os.MkdirTemp("", "invpa-pages-")] *)
  GOOS : string;
  Join : string → string → string;
    (* [filepath.Join] of two elements *)
  CombinedOutput : string → string → string → string * option string;
    (* [exec.Command(cmdName, "-png", pdfPath, prefix).CombinedOutput()] *)
  ReadDir : string → list DirEntry * option string;
  ReadFile : string → list Byte.byte * option string
}.

(** [strings.HasSuffix]:
    [len(s) >= len(suffix) && s[len(s)-len(suffix):] == suffix]. *)
Definition HasSuffix (s suffix : string) : bool :=
  (String.length suffix <=? String.length s)%nat
  && String.eqb (String.substring (String.length s - String.length suffix)
                           (String.length suffix) s) suffix.

(** [sort.Slice(files, func(i, j) { return files[i].Name() < files[j].Name() })]:
    ascending by name, names compared byte by byte. *)
Definition nameLe (a b : DirEntry) : Prop :=
  String.leb (EntryName a) (EntryName b) = true.

#[global] Instance nameLe_dec (a b : DirEntry) : Decision (nameLe a b).
Proof. unfold nameLe. apply _. Defined.

Definition sortByName (files : list DirEntry) : list DirEntry :=
  merge_sort nameLe files.

(** The entries that are read as pages. *)
Definition isPage (file : DirEntry) : bool :=
  negb (IsDir file) && HasSuffix (EntryName file) ".png".

(** [for _, file := range files { ... }]. *)
Fixpoint readPages (fs : FileSystem) (tempDir : string)
    (files : list DirEntry) (imageContents : list (list Byte.byte))
  : list (list Byte.byte) * option string :=
  match files with
  | [] => (imageContents, None)
  | file :: rest =>
      if isPage file then
        match ReadFile fs (Join fs tempDir (EntryName file)) with
        | (_, Some err) =>
            ([], Some ("failed to read generated image " +:+ EntryName file
                       +:+ ": " +:+ err))
        | (content, None) =>
            readPages fs tempDir rest (imageContents ++ [content])
        end
      else readPages fs tempDir rest imageContents
  end.

Definition convertPDFToImages (fs : FileSystem)
    (pdfPath popplerBinPath : string)
  : list (list Byte.byte) * option string :=
  match MkdirTemp fs with
  | (_, Some err) => ([], Some ("failed to create temp dir: " +:+ err))
  | (tempDir, None) =>
      let cmdName :=
        if bool_decide (popplerBinPath ≠ EmptyString)
           && bool_decide (GOOS fs = "windows")
        then Join fs popplerBinPath "pdftoppm"
        else "pdftoppm" in
      match CombinedOutput fs cmdName pdfPath (Join fs tempDir "page") with
      | (output, Some err) =>
          ([], Some ("pdftoppm command failed. Is poppler installed and in PATH, or configured in config.json? Error: "
                     +:+ err +:+ ". Output: " +:+ output))
      | (_, None) =>
          match ReadDir fs tempDir with
          | (_, Some err) => ([], Some ("failed to read temp dir: " +:+ err))
          | (files, None) =>
              match readPages fs tempDir (sortByName files) [] with
              | (_, Some err) => ([], Some err)
              | (imageContents, None) =>
                  if decide (length imageContents = 0%nat)
                  then ([], Some "pdftoppm did not generate any images")
                  else (imageContents, None)
              end
          end
      end
  end.

(** The names of the pages, in the order in which they are read. *)
Definition pageNames (files : list DirEntry) : list string :=
  EntryName <$> filter (λ file, isPage file = true) (sortByName files).

End Renderer.

(** A temp directory after rendering a twelve-page PDF without zero
    padding, with a stray text file and a sub-directory. *)
Definition sampleEntries : list Renderer.DirEntry :=
  [Renderer.mkDirEntry "page-2.png" false;
   Renderer.mkDirEntry "page-10.png" false;
   Renderer.mkDirEntry "notes.txt" false;
   Renderer.mkDirEntry "thumbs.png" true;
   Renderer.mkDirEntry "page-1.png" false].

Definition sampleFileSystem : Renderer.FileSystem :=
  Renderer.mkFileSystem
    ("/tmp/invpa-pages-1", None) "linux"
    (λ dir name, dir +:+ "/" +:+ name)
    (λ _ _ _, (EmptyString, None))
    (λ _, (sampleEntries, None))
    (λ path, ([Byte.x89; Byte.x50], None)).

(** A world whose PDF rendering is [convertPDFToImages] on that file
    system. *)
Definition worldRendered : World :=
  {| extOf := λ _, ".pdf";
     pdftoppm := Renderer.convertPDFToImages sampleFileSystem;
     osReadFile := λ _, ([], Some "no such file");
     chatGrouping := λ _, NoChoices;
     chatAnalysis := λ _ _ _, NoChoices;
     chatMatching := λ _ _ _, NoChoices;
     uuidNew := λ k, "uuid-" +:+ pretty k;
     rangeOrder := map_to_list;
     rangeOrder_perm := λ m, reflexivity (map_to_list m) |}.



(** * Properties *)

(** ** Sorting *)

Lemma sort_Ints_Permutation (l : list Z) : sort_Ints l ≡ₚ l.
Proof. apply merge_sort_Permutation. Qed.

Lemma sort_Ints_sorted (l : list Z) : StronglySorted Z.le (sort_Ints l).
Proof. apply (StronglySorted_merge_sort Z.le). Qed.

Lemma sort_Ints_length (l : list Z) : length (sort_Ints l) = length l.
Proof. by rewrite sort_Ints_Permutation. Qed.

Lemma sort_Ints_elem_of (l : list Z) (x : Z) : x ∈ sort_Ints l ↔ x ∈ l.
Proof. by rewrite sort_Ints_Permutation. Qed.

(** An ascending list is a fixed point of [sort.Ints]. *)
Lemma sort_Ints_ascending (l : list Z) :
  StronglySorted Z.le l → sort_Ints l = l.
Proof.
  intros Hl. apply (StronglySorted_unique Z.le); auto using sort_Ints_sorted.
  apply sort_Ints_Permutation.
Qed.

(** The shape of an ascending list of more than four elements. *)
Lemma ascending_ends (s : list Z) :
  StronglySorted Z.le s → (4 < length s)%nat →
  ∃ a b mid c d,
    s = a :: b :: mid ++ [c; d] ∧ mid ≠ [] ∧
    a ≤ b ∧ b ≤ c ∧ c ≤ d ∧ Forall (λ x, b ≤ x ≤ c) mid.
Proof.
  intros Hs Hlen.
  destruct s as [|a [|b rest]]; simpl in Hlen; try lia.
  destruct rest as [|x rest _] using rev_ind; simpl in Hlen; [lia|].
  destruct rest as [|y mid _] using rev_ind;
    [rewrite length_app in Hlen; simpl in Hlen; lia|].
  rewrite !length_app in Hlen; simpl in Hlen.
  exists a, b, mid, y, x. rewrite <- app_assoc. simpl.
  rewrite <- app_assoc in Hs. simpl in Hs.
  rewrite !StronglySorted_cons, StronglySorted_app, !Forall_app in Hs.
  destruct Hs as (Ha & (Hbm & Hbcd) & Hcross & _ & Hcd).
  rewrite StronglySorted_cons in Hcd. destruct Hcd as [Hc _].
  split_and!; auto.
  - destruct mid; [simpl in Hlen; lia | done].
  - by inversion Ha.
  - by inversion Hbcd.
  - by inversion Hc.
  - apply Forall_forall. intros z Hz. split.
    + by eapply Forall_forall in Hbm.
    + apply Hcross; [done | left].
Qed.

(** ** PageSelector *)

Lemma addIfNew_elem_of (xs : list Z) (st : gmap Z bool * list Z) (x : Z) :
  x ∈ (foldl addIfNew st xs).2 → x ∈ st.2 ∨ x ∈ xs.
Proof.
  revert st. induction xs as [|y xs IH]; intros st Hx; simpl in *; [by left|].
  apply IH in Hx as [Hx|Hx]; [|right; by right].
  unfold addIfNew in Hx. destruct (negb _); simpl in Hx; [|by left].
  apply elem_of_app in Hx as [Hx|Hx]; [by left|].
  apply list_elem_of_singleton in Hx as ->. right; left.
Qed.

(** An ordinal not selected yet is marked and appended. *)
Lemma addIfNew_new (st : gmap Z bool * list Z) (idx : Z) :
  st.1 !! idx = None →
  addIfNew st idx = (<[idx := true]> st.1, st.2 ++ [idx]).
Proof. intros Hnew. unfold addIfNew, selected_get. by rewrite Hnew. Qed.

(** The two loops on four strictly ascending values keep all four. *)
Lemma addIfNew_four (a b c d : Z) :
  a < b → b < c → c < d →
  (foldl addIfNew (foldl addIfNew (∅, []) [a; b]) [c; d]).2 = [a; b; c; d].
Proof.
  intros Hab Hbc Hcd. cbn [foldl].
  rewrite (addIfNew_new _ a) by apply lookup_empty. cbn [fst snd app].
  rewrite (addIfNew_new _ b)
    by (cbn [fst]; rewrite lookup_insert_ne by lia; apply lookup_empty).
  cbn [fst snd app].
  rewrite (addIfNew_new _ c)
    by (cbn [fst]; rewrite !lookup_insert_ne by lia; apply lookup_empty).
  cbn [fst snd app].
  rewrite (addIfNew_new _ d)
    by (cbn [fst]; rewrite !lookup_insert_ne by lia; apply lookup_empty).
  done.
Qed.

(** The second branch of the selector, on the ends of the sorted slice. *)
Lemma selectPagesForAnalysis_long (l : list Z) :
  (4 < length l)%nat →
  ∃ a b mid c d,
    sort_Ints l = a :: b :: mid ++ [c; d] ∧ mid ≠ [] ∧
    a ≤ b ∧ b ≤ c ∧ c ≤ d ∧ Forall (λ x, b ≤ x ≤ c) mid ∧
    selectPagesForAnalysis l =
      sort_Ints (foldl addIfNew (foldl addIfNew (∅, []) [a; b]) [c; d]).2.
Proof.
  intros Hlen.
  destruct (ascending_ends (sort_Ints l)) as (a & b & mid & c & d & Hs & Hrest);
    [apply sort_Ints_sorted | by rewrite sort_Ints_length |].
  exists a, b, mid, c, d. split; [done|].
  destruct Hrest as (? & ? & ? & ? & ?). split_and!; try done.
  unfold selectPagesForAnalysis.
  destruct (decide (length l ≤ 4)%nat) as [?|_]; [lia|].
  rewrite Hs. simpl take.
  replace (length (a :: b :: mid ++ [c; d]) - 2)%nat
    with (length (a :: b :: mid)) by (simpl; rewrite length_app; simpl; lia).
  change (a :: b :: mid ++ [c; d]) with ((a :: b :: mid) ++ [c; d]).
  by rewrite drop_app_length.
Qed.

(** The selector only returns ordinals of its argument. *)
Lemma selectPagesForAnalysis_elem_of (l : list Z) (x : Z) :
  x ∈ selectPagesForAnalysis l → x ∈ l.
Proof.
  destruct (decide (length l ≤ 4)%nat) as [Hle|Hgt].
  - unfold selectPagesForAnalysis. by rewrite decide_True.
  - destruct (selectPagesForAnalysis_long l) as
      (a & b & mid & c & d & Hs & _ & _ & _ & _ & _ & ->); [lia|].
    rewrite sort_Ints_elem_of. intros Hx.
    apply addIfNew_elem_of in Hx as [Hx|Hx];
      [apply addIfNew_elem_of in Hx as [Hx|Hx]|].
    + by apply elem_of_nil in Hx.
    + apply sort_Ints_elem_of. rewrite Hs.
      rewrite !elem_of_cons, elem_of_app, !elem_of_cons in *. tauto.
    + apply sort_Ints_elem_of. rewrite Hs.
      rewrite !elem_of_cons, elem_of_app, !elem_of_cons in *. tauto.
Qed.

Lemma selectPagesForAnalysis_Forall (P : Z → Prop) (l : list Z) :
  Forall P l → Forall P (selectPagesForAnalysis l).
Proof.
  rewrite !Forall_forall. eauto using selectPagesForAnalysis_elem_of.
Qed.

(** [minimum] and [maximum] of a non-empty list. *)
Lemma foldr_min_spec (d : Z) (l : list Z) :
  foldr Z.min d l ≤ d ∧ (∀ y, y ∈ l → foldr Z.min d l ≤ y) ∧
  (foldr Z.min d l = d ∨ foldr Z.min d l ∈ l).
Proof.
  induction l as [|x l (IH1 & IH2 & IH3)]; simpl.
  - split_and!; [lia | by intros y ?%elem_of_nil | by left].
  - split_and!; [lia | |].
    + intros y [->|Hy]%elem_of_cons; [lia|]. specialize (IH2 y Hy). lia.
    + destruct (Z.min_spec x (foldr Z.min d l)) as [[_ ->]|[_ ->]].
      * right; left.
      * destruct IH3; [by left | right; by right].
Qed.

Lemma foldr_max_spec (d : Z) (l : list Z) :
  d ≤ foldr Z.max d l ∧ (∀ y, y ∈ l → y ≤ foldr Z.max d l) ∧
  (foldr Z.max d l = d ∨ foldr Z.max d l ∈ l).
Proof.
  induction l as [|x l (IH1 & IH2 & IH3)]; simpl.
  - split_and!; [lia | by intros y ?%elem_of_nil | by left].
  - split_and!; [lia | |].
    + intros y [->|Hy]%elem_of_cons; [lia|]. specialize (IH2 y Hy). lia.
    + destruct (Z.max_spec x (foldr Z.max d l)) as [[_ ->]|[_ ->]].
      * destruct IH3; [by left | right; by right].
      * right; left.
Qed.

Lemma minimum_unique (l : list Z) (x : Z) :
  x ∈ l → (∀ y, y ∈ l → x ≤ y) → minimum l = x.
Proof.
  intros Hx Hlow. unfold minimum.
  destruct l as [|z l]; [by apply elem_of_nil in Hx|]. simpl hd.
  destruct (foldr_min_spec z (z :: l)) as (H1 & H2 & H3).
  assert (foldr Z.min z (z :: l) ∈ z :: l) as Hin.
  { destruct H3 as [->|?]; [left | done]. }
  specialize (H2 x Hx). specialize (Hlow _ Hin). lia.
Qed.

Lemma maximum_unique (l : list Z) (x : Z) :
  x ∈ l → (∀ y, y ∈ l → y ≤ x) → maximum l = x.
Proof.
  intros Hx Hhigh. unfold maximum.
  destruct l as [|z l]; [by apply elem_of_nil in Hx|]. simpl hd.
  destruct (foldr_max_spec z (z :: l)) as (H1 & H2 & H3).
  assert (foldr Z.max z (z :: l) ∈ z :: l) as Hin.
  { destruct H3 as [->|?]; [left | done]. }
  specialize (H2 x Hx). specialize (Hhigh _ Hin). lia.
Qed.

Lemma distinct_le_length (l : list Z) : (distinct l ≤ length l)%nat.
Proof.
  unfold distinct. apply submseteq_length, NoDup_submseteq.
  - apply NoDup_remove_dups.
  - intros x. by rewrite elem_of_remove_dups.
Qed.

(** A list whose elements all lie among [xs] has at most [length xs]
    distinct elements. *)
Lemma distinct_bound (l xs : list Z) :
  (∀ x, x ∈ l → x ∈ xs) → (distinct l ≤ length xs)%nat.
Proof.
  intros Hsub. unfold distinct. apply submseteq_length, NoDup_submseteq.
  - apply NoDup_remove_dups.
  - intros x. rewrite elem_of_remove_dups. apply Hsub.
Qed.

Lemma occurrences_sort_Ints (x : Z) (l : list Z) :
  occurrences x (sort_Ints l) = occurrences x l.
Proof. unfold occurrences. by rewrite sort_Ints_Permutation. Qed.

(** C1, as amended: for every page group with 4 or fewer page ordinals the
    selector returns the group as it was given, all ordinals in their
    original order; the output equals the sorted input exactly when the
    input is already ascending. *)
Theorem selectPagesForAnalysis_at_most_4 (pageIndices : list Z) :
  (length pageIndices ≤ 4)%nat →
  selectPagesForAnalysis pageIndices = pageIndices ∧
  (selectPagesForAnalysis pageIndices = sort_Ints pageIndices
   ↔ StronglySorted Z.le pageIndices).
Proof.
  intros Hlen. unfold selectPagesForAnalysis.
  rewrite decide_True by done. split; [done|]. split.
  - intros ->. apply sort_Ints_sorted.
  - intros Hs. symmetry. by apply sort_Ints_ascending.
Qed.

Lemma selectPagesForAnalysis_at_most_4_witness :
  selectPagesForAnalysis [2; 0; 1] = [2; 0; 1] ∧
  (selectPagesForAnalysis [2; 0; 1] = sort_Ints [2; 0; 1]
   ↔ StronglySorted Z.le [2; 0; 1]).
Proof. apply (selectPagesForAnalysis_at_most_4 [2; 0; 1]). simpl. lia. Defined.

(** C1 as stated fails: a group of two ordinals given in descending order
    is returned in descending order, which is not the sorted input. *)
Lemma selectPagesForAnalysis_at_most_4_not_sorted :
  (length [3; 1] ≤ 4)%nat ∧
  selectPagesForAnalysis [3; 1] = [3; 1] ∧
  sort_Ints [3; 1] = [1; 3] ∧
  selectPagesForAnalysis [3; 1] ≠ sort_Ints [3; 1].
Proof. split_and!; [simpl; lia | done | done | by vm_compute]. Qed.

(** What the second branch returns when the ends of the sorted group are
    not repeated. *)
Lemma selectPagesForAnalysis_ends (pageIndices : list Z) :
  (4 < distinct pageIndices)%nat →
  occurrences (min1 pageIndices) pageIndices = 1%nat →
  occurrences (max1 pageIndices) pageIndices = 1%nat →
  selectPagesForAnalysis pageIndices =
    [min1 pageIndices; min2 pageIndices; max2 pageIndices; max1 pageIndices] ∧
  length (selectPagesForAnalysis pageIndices) = 4%nat ∧
  min1 pageIndices < min2 pageIndices ∧
  min2 pageIndices < max2 pageIndices ∧
  max2 pageIndices < max1 pageIndices.
Proof.
  intros Hdist Hlow Hhigh.
  pose proof (distinct_le_length pageIndices) as Hlen.
  destruct (selectPagesForAnalysis_long pageIndices) as
    (a & b & mid & c & d & Hs & Hmid & Hab & Hbc & Hcd & Hbetween & Hsel);
    [lia|].
  rewrite Forall_forall in Hbetween.
  assert (∀ y, y ∈ pageIndices ↔ y = a ∨ y = b ∨ y ∈ mid ∨ y = c ∨ y = d)
    as Hmem.
  { intros y. rewrite <- sort_Ints_elem_of, Hs.
    rewrite !elem_of_cons, elem_of_app, !elem_of_cons, elem_of_nil. tauto. }
  assert (min1 pageIndices = a) as Hmin1.
  { apply minimum_unique; [apply Hmem; by left|].
    intros y [-> | [-> | [Hy | [-> | ->]]]]%Hmem; try lia.
    specialize (Hbetween y Hy). lia. }
  assert (max1 pageIndices = d) as Hmax1.
  { apply maximum_unique; [apply Hmem; tauto|].
    intros y [-> | [-> | [Hy | [-> | ->]]]]%Hmem; try lia.
    specialize (Hbetween y Hy). lia. }
  rewrite Hmin1, <- occurrences_sort_Ints, Hs in Hlow.
  rewrite Hmax1, <- occurrences_sort_Ints, Hs in Hhigh.
  assert (a < b) as Hab'.
  { destruct (decide (a = b)) as [<-|]; [|lia].
    unfold occurrences in Hlow. rewrite !filter_cons_True in Hlow by done.
    simpl in Hlow. lia. }
  assert (c < d) as Hcd'.
  { destruct (decide (c = d)) as [->|]; [|lia].
    unfold occurrences in Hhigh.
    change (a :: b :: mid ++ [d; d]) with ((a :: b :: mid) ++ [d; d]) in Hhigh.
    rewrite filter_app, length_app in Hhigh.
    assert (length (filter (λ y, y = d) [d; d]) = 2%nat) as Htwo
      by (by rewrite !filter_cons_True by done).
    lia. }
  assert (b < c) as Hbc'.
  { destruct (decide (b = c)) as [<-|]; [|lia].
    assert (distinct pageIndices ≤ length [a; b; d])%nat as Hbound.
    { apply distinct_bound.
      intros y [-> | [-> | [Hy | [-> | ->]]]]%Hmem;
        rewrite !elem_of_cons; try tauto.
      specialize (Hbetween y Hy). right; left. lia. }
    simpl in Hbound. lia. }
  assert (min2 pageIndices = b) as Hmin2.
  { unfold min2. rewrite Hmin1. apply minimum_unique.
    - apply list_elem_of_filter. split; [lia | apply Hmem; tauto].
    - intros y [Hne Hy]%list_elem_of_filter.
      apply Hmem in Hy as [-> | [-> | [Hy | [-> | ->]]]]; try lia.
      specialize (Hbetween y Hy). lia. }
  assert (max2 pageIndices = c) as Hmax2.
  { unfold max2. rewrite Hmax1. apply maximum_unique.
    - apply list_elem_of_filter. split; [lia | apply Hmem; tauto].
    - intros y [Hne Hy]%list_elem_of_filter.
      apply Hmem in Hy as [-> | [-> | [Hy | [-> | ->]]]]; try lia.
      specialize (Hbetween y Hy). lia. }
  assert (selectPagesForAnalysis pageIndices = [a; b; c; d]) as Hout.
  { rewrite Hsel, addIfNew_four by done.
    apply sort_Ints_ascending.
    repeat (constructor; [|repeat constructor; lia]). constructor. }
  rewrite Hout, Hmin1, Hmin2, Hmax1, Hmax2. split_and!; done.
Qed.

(** C2, as amended: for every page group containing more than 4 distinct
    page ordinals in which neither the lowest nor the highest ordinal is
    repeated (in particular for every group without repetitions), the
    selector returns exactly 4 elements, strictly ascending: the 2 lowest
    and the 2 highest ordinals of the input set. *)
Theorem selectPagesForAnalysis_more_than_4 (pageIndices : list Z) :
  (4 < distinct pageIndices)%nat →
  occurrences (min1 pageIndices) pageIndices = 1%nat →
  occurrences (max1 pageIndices) pageIndices = 1%nat →
  selectPagesForAnalysis pageIndices =
    [min1 pageIndices; min2 pageIndices; max2 pageIndices; max1 pageIndices] ∧
  length (selectPagesForAnalysis pageIndices) = 4%nat ∧
  min1 pageIndices < min2 pageIndices ∧
  min2 pageIndices < max2 pageIndices ∧
  max2 pageIndices < max1 pageIndices.
Proof. apply selectPagesForAnalysis_ends. Qed.

Lemma selectPagesForAnalysis_more_than_4_witness :
  selectPagesForAnalysis [5; 0; 4; 1; 3; 2] =
    [min1 [5; 0; 4; 1; 3; 2]; min2 [5; 0; 4; 1; 3; 2];
     max2 [5; 0; 4; 1; 3; 2]; max1 [5; 0; 4; 1; 3; 2]] ∧
  length (selectPagesForAnalysis [5; 0; 4; 1; 3; 2]) = 4%nat ∧
  min1 [5; 0; 4; 1; 3; 2] < min2 [5; 0; 4; 1; 3; 2] ∧
  min2 [5; 0; 4; 1; 3; 2] < max2 [5; 0; 4; 1; 3; 2] ∧
  max2 [5; 0; 4; 1; 3; 2] < max1 [5; 0; 4; 1; 3; 2].
Proof.
  apply (selectPagesForAnalysis_more_than_4 [5; 0; 4; 1; 3; 2]).
  - vm_compute. lia.
  - reflexivity.
  - reflexivity.
Defined.

(** C2 as stated fails: a group with five distinct ordinals whose lowest
    ordinal is listed twice loses its second lowest ordinal and comes back
    with three elements. *)
Lemma selectPagesForAnalysis_more_than_4_repeated_lowest :
  (4 < distinct [0; 0; 1; 2; 3; 4]%Z)%nat ∧
  selectPagesForAnalysis [0; 0; 1; 2; 3; 4] = [0; 3; 4] ∧
  length (selectPagesForAnalysis [0; 0; 1; 2; 3; 4]) ≠ 4%nat ∧
  [min1 [0; 0; 1; 2; 3; 4]; min2 [0; 0; 1; 2; 3; 4];
   max2 [0; 0; 1; 2; 3; 4]; max1 [0; 0; 1; 2; 3; 4]] = [0; 1; 3; 4].
Proof. split_and!; [vm_compute; lia | by vm_compute | by vm_compute | done]. Qed.

(** The same on lists without repetition. *)
Lemma minimum_elem_of (l : list Z) : l ≠ [] → minimum l ∈ l.
Proof.
  destruct l as [|z l]; [done|]. intros _. unfold minimum. simpl hd.
  destruct (foldr_min_spec z (z :: l)) as (_ & _ & [->|?]); [left | done].
Qed.

Lemma maximum_elem_of (l : list Z) : l ≠ [] → maximum l ∈ l.
Proof.
  destruct l as [|z l]; [done|]. intros _. unfold maximum. simpl hd.
  destruct (foldr_max_spec z (z :: l)) as (_ & _ & [->|?]); [left | done].
Qed.

Lemma distinct_NoDup (l : list Z) : NoDup l → distinct l = length l.
Proof.
  unfold distinct. induction 1 as [|x l Hx _ IH]; simpl; [done|].
  destruct (decide_rel elem_of x l) as [?|_]; [done|]. simpl. by rewrite IH.
Qed.

Lemma occurrences_not_elem_of (x : Z) (l : list Z) :
  x ∉ l → occurrences x l = 0%nat.
Proof.
  unfold occurrences. induction l as [|y l IH]; [done|].
  intros [Hne Hx]%not_elem_of_cons.
  rewrite filter_cons_False by (intros ->; done). by apply IH.
Qed.

Lemma occurrences_NoDup (x : Z) (l : list Z) :
  NoDup l → x ∈ l → occurrences x l = 1%nat.
Proof.
  unfold occurrences. induction 1 as [|y l Hy Hl IH]; intros Hx.
  - by apply elem_of_nil in Hx.
  - apply elem_of_cons in Hx as [->|Hx].
    + rewrite filter_cons_True by done. simpl. f_equal.
      by apply occurrences_not_elem_of.
    + rewrite filter_cons_False; [by apply IH|]. intros ->. done.
Qed.

Lemma selectPagesForAnalysis_NoDup (pageIndices : list Z) :
  NoDup pageIndices → (4 < length pageIndices)%nat →
  selectPagesForAnalysis pageIndices =
    [min1 pageIndices; min2 pageIndices; max2 pageIndices; max1 pageIndices].
Proof.
  intros Hnd Hlen.
  assert (pageIndices ≠ []) as Hne by (intros ->; simpl in Hlen; lia).
  apply selectPagesForAnalysis_ends.
  - by rewrite distinct_NoDup.
  - apply occurrences_NoDup, minimum_elem_of; done.
  - apply occurrences_NoDup, maximum_elem_of; done.
Qed.

(** ** ProcessFile on groups whose ordinals are pages of the document *)

(** [analyzeInvoicePages] returns an invoice or an error, never neither. *)
Lemma analyzeInvoicePages_cases (w : World) (call : nat)
    (imageContents : list PageImage) (myCompany : Counterparty) :
  (∃ invoice, analyzeInvoicePages w call imageContents myCompany
              = (Some invoice, None)) ∨
  (∃ err, analyzeInvoicePages w call imageContents myCompany
          = (None, Some err)).
Proof.
  unfold analyzeInvoicePages.
  destruct (chatAnalysis w call myCompany imageContents); eauto.
Qed.

Lemma imageAt_in_range (imageContents : list PageImage) (i : Z) :
  0 ≤ i < Z.of_nat (length imageContents) →
  imageAt imageContents i = Done (default [] (imageContents !! Z.to_nat i)).
Proof.
  intros Hi. unfold imageAt. rewrite decide_True by done.
  destruct (lookup_lt_is_Some_2 imageContents (Z.to_nat i)) as [c ->]; [lia|].
  done.
Qed.

Lemma imageAt_out_of_range (imageContents : list PageImage) (i : Z) :
  ¬ (0 ≤ i < Z.of_nat (length imageContents)) →
  imageAt imageContents i = Fault "index out of range".
Proof. intros Hi. unfold imageAt. by rewrite decide_False. Qed.

Lemma collectImages_in_range (imageContents : list PageImage)
    (pages : list Z) (acc : list PageImage) :
  Forall (λ i, 0 ≤ i < Z.of_nat (length imageContents)) pages →
  collectImages imageContents pages acc
  = Done (acc ++ pagesAt imageContents pages).
Proof.
  intros Hpages. revert acc.
  induction Hpages as [|i pages Hi _ IH]; intros acc; simpl.
  - by rewrite app_nil_r.
  - rewrite imageAt_in_range by done. rewrite IH.
    by rewrite <- app_assoc.
Qed.

(** An ordinal outside the document makes the lookup loop panic. *)
Lemma collectImages_out_of_range (imageContents : list PageImage)
    (pages : list Z) (acc : list PageImage) :
  Exists (λ i, ¬ (0 ≤ i < Z.of_nat (length imageContents))) pages →
  collectImages imageContents pages acc = Fault "index out of range".
Proof.
  intros Hpages. revert acc.
  induction pages as [|i pages IH]; intros acc; [by inversion Hpages|].
  simpl. destruct (decide (0 ≤ i < Z.of_nat (length imageContents))) as [Hi|Hi].
  - rewrite imageAt_in_range by done. apply IH.
    by apply Exists_cons in Hpages as [?|?].
  - by rewrite imageAt_out_of_range.
Qed.

Lemma analyzeGroups_in_range (w : World) (imageContents : list PageImage)
    (myCompany : Counterparty) (visit : list (string * list Z))
    (call : nat) (acc : list Invoice) :
  Forall (λ entry : string * list Z,
            Forall (λ i, 0 ≤ i < Z.of_nat (length imageContents)) entry.2)
         visit →
  analyzeGroups w imageContents myCompany visit call acc
  = Done (acc ++ omap id
            (imap (λ k, groupInvoice w imageContents myCompany (call + k))
                  visit)).
Proof.
  intros Hvisit. revert call acc.
  induction Hvisit as [|[invoiceID pageIndices] visit Hin _ IH];
    intros call acc; simpl.
  - by rewrite app_nil_r.
  - rewrite collectImages_in_range
      by by apply selectPagesForAnalysis_Forall.
    simpl. unfold groupInvoice at 1. simpl. rewrite Nat.add_0_r.
    assert (imap ((λ k, groupInvoice w imageContents myCompany (call + k)) ∘ S)
                 visit
            = imap (λ k, groupInvoice w imageContents myCompany (S call + k))
                   visit) as ->.
    { apply imap_ext. intros k e _. simpl. f_equal. lia. }
    destruct (analyzeInvoicePages_cases w call
                (pagesAt imageContents (selectPagesForAnalysis pageIndices))
                myCompany) as [[invoice ->]|[err ->]];
      rewrite IH; simpl; [|done].
    by rewrite <- app_assoc.
Qed.

Lemma ordinals_in_range_visit (w : World) (imageContents : list PageImage)
    (pageGroups : gmap string (list Z)) :
  ordinals_in_range imageContents pageGroups →
  Forall (λ entry : string * list Z,
            Forall (λ i, 0 ≤ i < Z.of_nat (length imageContents)) entry.2)
         (rangeOrder w pageGroups).
Proof.
  unfold ordinals_in_range. rewrite map_Forall_to_list.
  rewrite (rangeOrder_perm w pageGroups).
  intros Hall. eapply Forall_impl; [exact Hall|].
  by intros [invoiceID pageIndices].
Qed.

(** With a page list and in-range groups, [ProcessFile] returns normally,
    with a nil error, what each group contributes. *)
Lemma ProcessFile_in_range (w : World) (filePath apiKey popplerPath : string)
    (myCompany : Counterparty) (imageContents : list PageImage) :
  loadImages w filePath popplerPath = (imageContents, None) →
  imageContents ≠ [] →
  ordinals_in_range imageContents (pageGroupsFor w imageContents) →
  ProcessFile w filePath apiKey popplerPath myCompany
  = Done (omap id (imap (groupInvoice w imageContents myCompany)
                        (rangeOrder w (pageGroupsFor w imageContents))),
          None).
Proof.
  intros Hload Hne Hrange. unfold ProcessFile. rewrite Hload.
  rewrite decide_False by (by destruct imageContents).
  rewrite analyzeGroups_in_range by by apply ordinals_in_range_visit.
  done.
Qed.

(** ** Grouping fallback *)

Lemma singleInvoiceGroups_foldl (acc xs : list Z) :
  foldl (λ (pageGroups : gmap string (list Z)) i,
           <["single_invoice" :=
               default [] (pageGroups !! "single_invoice") ++ [i]]> pageGroups)
        {["single_invoice" := acc]} xs
  = {["single_invoice" := acc ++ xs]}.
Proof.
  revert acc. induction xs as [|x xs IH]; intros acc; simpl.
  - by rewrite app_nil_r.
  - rewrite lookup_singleton_eq. simpl. rewrite insert_singleton_eq, IH.
    by rewrite <- app_assoc.
Qed.

Lemma singleInvoiceGroups_eq (imageContents : list PageImage) :
  singleInvoiceGroups imageContents
  = {["single_invoice" := seqZ 0 (Z.of_nat (length imageContents))]}.
Proof. unfold singleInvoiceGroups. by rewrite singleInvoiceGroups_foldl. Qed.

Lemma rangeOrder_singleton (w : World) (k : string) (v : list Z) :
  rangeOrder w {[k := v]} = [(k, v)].
Proof.
  apply Permutation_singleton_r.
  by rewrite (rangeOrder_perm w), map_to_list_singleton.
Qed.

Lemma rangeOrder_empty (w : World) : rangeOrder w ∅ = [].
Proof.
  apply Permutation_nil_r. by rewrite (rangeOrder_perm w), map_to_list_empty.
Qed.

(** C3: for every document of N pages, if the grouping call fails, the page
    groups are the single group ["single_invoice"] holding the ordinals
    0..N-1 in order, and ProcessFile does not fail: it returns, with a nil
    error, what the detailed analysis of that one group yields. *)
Theorem ProcessFile_grouping_fallback (w : World)
    (filePath apiKey popplerPath : string) (myCompany : Counterparty)
    (imageContents : list PageImage) :
  loadImages w filePath popplerPath = (imageContents, None) →
  imageContents ≠ [] →
  (groupPagesByInvoice w imageContents).2 ≠ None →
  pageGroupsFor w imageContents
    = {["single_invoice" := seqZ 0 (Z.of_nat (length imageContents))]} ∧
  rangeOrder w (pageGroupsFor w imageContents)
    = [("single_invoice", seqZ 0 (Z.of_nat (length imageContents)))] ∧
  ProcessFile w filePath apiKey popplerPath myCompany
    = Done (option_list
              (groupInvoice w imageContents myCompany 0
                 ("single_invoice",
                  seqZ 0 (Z.of_nat (length imageContents)))),
            None).
Proof.
  intros Hload Hne Herr.
  assert (pageGroupsFor w imageContents
          = {["single_invoice" := seqZ 0 (Z.of_nat (length imageContents))]})
    as Hgroups.
  { unfold pageGroupsFor.
    destruct (groupPagesByInvoice w imageContents) as [groups [err|]];
      [apply singleInvoiceGroups_eq | done]. }
  split; [done|]. rewrite Hgroups, rangeOrder_singleton. split; [done|].
  erewrite ProcessFile_in_range; [| done | done |].
  - rewrite Hgroups, rangeOrder_singleton. simpl.
    by destruct (groupInvoice _ _ _ _ _).
  - rewrite Hgroups. apply map_Forall_singleton, Forall_forall.
    intros i Hi%elem_of_seqZ. lia.
Qed.

Lemma ProcessFile_grouping_fallback_witness :
  pageGroupsFor worldGroupingDown sixPages
    = {["single_invoice" := seqZ 0 (Z.of_nat (length sixPages))]} ∧
  rangeOrder worldGroupingDown (pageGroupsFor worldGroupingDown sixPages)
    = [("single_invoice", seqZ 0 (Z.of_nat (length sixPages)))] ∧
  ProcessFile worldGroupingDown "scan.pdf" "sk-test" EmptyString us
    = Done (option_list
              (groupInvoice worldGroupingDown sixPages us 0
                 ("single_invoice", seqZ 0 (Z.of_nat (length sixPages)))),
            None).
Proof.
  apply (ProcessFile_grouping_fallback worldGroupingDown
           "scan.pdf" "sk-test" EmptyString us sixPages).
  - reflexivity.
  - discriminate.
  - simpl. discriminate.
Defined.

(** ** Ordinals outside the document *)

(** As soon as one group has a selected ordinal that is not a page of the
    document, the loop over the groups panics: failed analyses only
    [continue], so every group is reached unless an earlier one panicked
    in the same way. *)
Lemma analyzeGroups_out_of_range (w : World) (imageContents : list PageImage)
    (myCompany : Counterparty) (visit : list (string * list Z))
    (call : nat) (acc : list Invoice) :
  Exists (λ entry : string * list Z,
            Exists (λ i, ¬ (0 ≤ i < Z.of_nat (length imageContents)))
                   (selectPagesForAnalysis entry.2))
         visit →
  analyzeGroups w imageContents myCompany visit call acc
  = Fault "index out of range".
Proof.
  revert call acc.
  induction visit as [|[invoiceID pageIndices] visit IH];
    intros call acc Hex; [by inversion Hex|].
  simpl.
  destruct (decide (Exists (λ i, ¬ (0 ≤ i < Z.of_nat (length imageContents)))
                           (selectPagesForAnalysis pageIndices)))
    as [Hbad|Hgood].
  - by rewrite collectImages_out_of_range.
  - apply Exists_cons in Hex as [?|Hex]; [done|].
    rewrite collectImages_in_range.
    + simpl.
      destruct (analyzeInvoicePages_cases w call
                  (pagesAt imageContents (selectPagesForAnalysis pageIndices))
                  myCompany) as [[invoice ->]|[err ->]]; by apply IH.
    + apply Forall_forall. intros i Hi.
      destruct (decide (0 ≤ i < Z.of_nat (length imageContents))); [done|].
      destruct Hgood. apply Exists_exists. eauto.
Qed.

Lemma ProcessFile_out_of_range (w : World)
    (filePath apiKey popplerPath : string) (myCompany : Counterparty)
    (imageContents : list PageImage) :
  loadImages w filePath popplerPath = (imageContents, None) →
  imageContents ≠ [] →
  Exists (λ entry : string * list Z,
            Exists (λ i, ¬ (0 ≤ i < Z.of_nat (length imageContents)))
                   (selectPagesForAnalysis entry.2))
         (rangeOrder w (pageGroupsFor w imageContents)) →
  ProcessFile w filePath apiKey popplerPath myCompany
  = Fault "index out of range".
Proof.
  intros Hload Hne Hex. unfold ProcessFile. rewrite Hload.
  rewrite decide_False by (by destruct imageContents).
  by rewrite analyzeGroups_out_of_range.
Qed.

(** C7 fails on the code: for a one-page image whose grouping response
    names page 1, ProcessFile does not return an error value; the lookup
    [imageContents[pageIndex]] is out of bounds and the call panics. *)
Theorem ProcessFile_stray_ordinal_panics :
  loadImages worldStrayOrdinal "scan.png" EmptyString = ([page Byte.x00], None) ∧
  pageGroupsFor worldStrayOrdinal [page Byte.x00] = {["INV-1" := [1]]} ∧
  imageAt [page Byte.x00] 1 = Fault "index out of range" ∧
  ProcessFile worldStrayOrdinal "scan.png" "sk-test" EmptyString us
  = Fault "index out of range".
Proof.
  split_and!; [done | done | done |].
  apply (ProcessFile_out_of_range _ _ _ _ _ [page Byte.x00]); [done | done |].
  assert (pageGroupsFor worldStrayOrdinal [page Byte.x00] = {["INV-1" := [1]]})
    as -> by done.
  rewrite rangeOrder_singleton.
  apply Exists_cons_hd, Exists_cons_hd. simpl. lia.
Qed.

(** ** Failures of the detailed analysis *)

Lemma groupInvoice_elem_of (w : World) (imageContents : list PageImage)
    (myCompany : Counterparty) (visit : list (string * list Z))
    (k : nat) (entry : string * list Z) (invoice : Invoice) :
  visit !! k = Some entry →
  groupInvoice w imageContents myCompany k entry = Some invoice →
  invoice ∈ omap id (imap (groupInvoice w imageContents myCompany) visit).
Proof.
  intros Hk Hinv. apply list_elem_of_omap. exists (Some invoice).
  split; [|done]. apply list_elem_of_lookup. exists k.
  by rewrite list_lookup_imap, Hk, <- Hinv.
Qed.

(** C8: for every document whose pages were grouped into page groups (all
    ordinals being pages of the document), ProcessFile returns a nil error
    together with exactly the invoices of the groups whose own detailed
    analysis succeeds, in the order the groups are visited; the failure of
    one group's analysis drops no other group's invoice. *)
Theorem ProcessFile_group_failure_is_local (w : World)
    (filePath apiKey popplerPath : string) (myCompany : Counterparty)
    (imageContents : list PageImage) :
  loadImages w filePath popplerPath = (imageContents, None) →
  imageContents ≠ [] →
  ordinals_in_range imageContents (pageGroupsFor w imageContents) →
  ∃ finalInvoices,
    ProcessFile w filePath apiKey popplerPath myCompany
      = Done (finalInvoices, None) ∧
    finalInvoices
      = omap id (imap (groupInvoice w imageContents myCompany)
                      (rangeOrder w (pageGroupsFor w imageContents))) ∧
    ∀ k entry invoice,
      rangeOrder w (pageGroupsFor w imageContents) !! k = Some entry →
      analyzeInvoicePages w k
        (pagesAt imageContents (selectPagesForAnalysis entry.2)) myCompany
        = (Some invoice, None) →
      invoice ∈ finalInvoices.
Proof.
  intros Hload Hne Hrange. eexists. split_and!.
  - by apply ProcessFile_in_range.
  - done.
  - intros k entry invoice Hk Hinv.
    apply (groupInvoice_elem_of _ _ _ _ k entry); [done|].
    unfold groupInvoice. by rewrite Hinv.
Qed.

Lemma ProcessFile_group_failure_is_local_witness :
  ∃ finalInvoices,
    ProcessFile worldOneGroupFails "scan.pdf" "sk-test" EmptyString us
      = Done (finalInvoices, None) ∧
    finalInvoices
      = omap id (imap (groupInvoice worldOneGroupFails sixPages us)
                      (rangeOrder worldOneGroupFails
                         (pageGroupsFor worldOneGroupFails sixPages))) ∧
    ∀ k entry invoice,
      rangeOrder worldOneGroupFails
        (pageGroupsFor worldOneGroupFails sixPages) !! k = Some entry →
      analyzeInvoicePages worldOneGroupFails k
        (pagesAt sixPages (selectPagesForAnalysis entry.2)) us
        = (Some invoice, None) →
      invoice ∈ finalInvoices.
Proof.
  apply (ProcessFile_group_failure_is_local worldOneGroupFails
           "scan.pdf" "sk-test" EmptyString us sixPages).
  - reflexivity.
  - discriminate.
  - unfold ordinals_in_range. apply (bool_decide_unpack _). vm_compute. exact I.
Defined.

(** In that run group "A" is visited first and its analysis fails; the
    invoice of group "B" is returned all the same. *)
Example ProcessFile_one_group_fails :
  rangeOrder worldOneGroupFails (pageGroupsFor worldOneGroupFails sixPages)
    = [("A", [0; 1; 2]); ("B", [3; 4; 5])] ∧
  (analyzeInvoicePages worldOneGroupFails 0
     (pagesAt sixPages (selectPagesForAnalysis [0; 1; 2])) us).2 ≠ None ∧
  ProcessFile worldOneGroupFails "scan.pdf" "sk-test" EmptyString us
    = Done ([inv2], None).
Proof. split_and!; [by vm_compute | by vm_compute | by vm_compute]. Qed.

(** When every detailed analysis fails nothing is contributed. *)
Lemma groupInvoice_all_fail (w : World) (imageContents : list PageImage)
    (myCompany : Counterparty) (visit : list (string * list Z)) :
  (∀ k images, (analyzeInvoicePages w k images myCompany).2 ≠ None) →
  omap id (imap (groupInvoice w imageContents myCompany) visit) = [].
Proof.
  intros Hfail. apply elem_of_nil_inv. intros invoice.
  rewrite list_elem_of_omap. intros (o & Ho & Heq). simpl in Heq. subst o.
  apply list_elem_of_lookup in Ho as [k Hk].
  rewrite list_lookup_imap in Hk.
  destruct (visit !! k) as [entry|]; [|done]. simpl in Hk.
  injection Hk as Hk. unfold groupInvoice in Hk.
  specialize (Hfail k (pagesAt imageContents (selectPagesForAnalysis entry.2))).
  by destruct (analyzeInvoicePages w k _ myCompany) as [[?|] [?|]].
Qed.

(** A document in which the service finds no group at all. *)
Lemma ProcessFile_no_groups (w : World) (filePath apiKey popplerPath : string)
    (myCompany : Counterparty) (imageContents : list PageImage) :
  loadImages w filePath popplerPath = (imageContents, None) →
  imageContents ≠ [] →
  chatGrouping w imageContents = Answer ∅ →
  ProcessFile w filePath apiKey popplerPath myCompany = Done ([], None).
Proof.
  intros Hload Hne Hgroups.
  assert (pageGroupsFor w imageContents = ∅) as Hempty.
  { unfold pageGroupsFor, groupPagesByInvoice. by rewrite Hgroups. }
  erewrite ProcessFile_in_range; [| done | done |].
  - by rewrite Hempty, rangeOrder_empty.
  - rewrite Hempty. apply map_Forall_empty.
Qed.

(** C10: if the detailed analysis fails for every page group of a document,
    ProcessFile returns the empty invoice list with a nil error, which is
    also what it returns for a document in which no group was found; the
    reporter's worker turns the empty list into the per-file error
    "No invoices found in file". *)
Theorem ProcessFile_all_groups_fail (w : World)
    (filePath apiKey popplerPath : string) (myCompany : Counterparty)
    (imageContents : list PageImage) :
  loadImages w filePath popplerPath = (imageContents, None) →
  imageContents ≠ [] →
  ordinals_in_range imageContents (pageGroupsFor w imageContents) →
  (∀ k images, (analyzeInvoicePages w k images myCompany).2 ≠ None) →
  ProcessFile w filePath apiKey popplerPath myCompany = Done ([], None) ∧
  (∀ w', loadImages w' filePath popplerPath = (imageContents, None) →
         chatGrouping w' imageContents = Answer ∅ →
         ProcessFile w' filePath apiKey popplerPath myCompany
         = ProcessFile w filePath apiKey popplerPath myCompany) ∧
  Reporter.worker w apiKey popplerPath myCompany filePath
    = Done (mkResult filePath None "No invoices found in file").
Proof.
  intros Hload Hne Hrange Hfail.
  assert (ProcessFile w filePath apiKey popplerPath myCompany = Done ([], None))
    as Hout.
  { erewrite ProcessFile_in_range by done. by rewrite groupInvoice_all_fail. }
  split_and!; [done | |].
  - intros w' Hload' Hnone. rewrite Hout. by eapply ProcessFile_no_groups.
  - unfold Reporter.worker. by rewrite Hout.
Qed.

Lemma ProcessFile_all_groups_fail_witness :
  ProcessFile worldAllGroupsFail "scan.pdf" "sk-test" EmptyString us = Done ([], None) ∧
  (∀ w', loadImages w' "scan.pdf" EmptyString = (sixPages, None) →
         chatGrouping w' sixPages = Answer ∅ →
         ProcessFile w' "scan.pdf" "sk-test" EmptyString us
         = ProcessFile worldAllGroupsFail "scan.pdf" "sk-test" EmptyString us) ∧
  Reporter.worker worldAllGroupsFail "sk-test" EmptyString us "scan.pdf"
    = Done (mkResult "scan.pdf" None "No invoices found in file").
Proof.
  apply (ProcessFile_all_groups_fail worldAllGroupsFail
           "scan.pdf" "sk-test" EmptyString us sixPages).
  - reflexivity.
  - discriminate.
  - unfold ordinals_in_range. apply (bool_decide_unpack _). vm_compute. exact I.
  - intros k images. simpl. discriminate.
Defined.

(** ** CounterpartyMatcher *)

Lemma fillIfEmpty_get (get : Counterparty → string)
    (set : string → Counterparty → Counterparty) (newData merged : Counterparty) :
  (∀ v c, get (set v c) = v) →
  get (fillIfEmpty get set newData merged)
  = if decide (get merged = EmptyString) then get newData else get merged.
Proof.
  intros Hset. unfold fillIfEmpty.
  destruct (decide (get merged = EmptyString)) as [He|He].
  - rewrite (bool_decide_eq_true_2 _ He). simpl.
    destruct (decide (get newData = EmptyString)) as [Hn|Hn].
    + rewrite bool_decide_eq_false_2 by (intros H; by apply H).
      by rewrite He, Hn.
    + rewrite (bool_decide_eq_true_2 _ Hn). apply Hset.
  - by rewrite (bool_decide_eq_false_2 _ He).
Qed.

Lemma fillIfEmpty_frame (f get : Counterparty → string)
    (set : string → Counterparty → Counterparty) (newData merged : Counterparty) :
  (∀ v c, f (set v c) = f c) →
  f (fillIfEmpty get set newData merged) = f merged.
Proof. intros Hset. unfold fillIfEmpty. by destruct (_ && _). Qed.

(** Reading field [F] of the merged entry: skip the assignments to other
    fields, resolve the one to [F]. *)
Ltac merged_field F :=
  repeat (rewrite (fillIfEmpty_frame F) by done);
  try (rewrite (fillIfEmpty_get F) by done);
  repeat (rewrite (fillIfEmpty_frame F) by done);
  reflexivity.

(** C4: the merge leaves id, name, country and address of the existing
    entry unchanged, and each of vat, swift, iban, phone, fax, email and
    website of the merged entry is the new entry's field when the existing
    field is empty and the existing field otherwise. *)
Theorem mergeCounterparties_fields (existing newData : Counterparty) :
  let merged := mergeCounterparties existing newData in
  ID merged = ID existing ∧
  Name merged = Name existing ∧
  Country merged = Country existing ∧
  Address merged = Address existing ∧
  VAT merged = (if decide (VAT existing = EmptyString) then VAT newData else VAT existing) ∧
  SWIFT merged = (if decide (SWIFT existing = EmptyString) then SWIFT newData else SWIFT existing) ∧
  IBAN merged = (if decide (IBAN existing = EmptyString) then IBAN newData else IBAN existing) ∧
  Phone merged = (if decide (Phone existing = EmptyString) then Phone newData else Phone existing) ∧
  Fax merged = (if decide (Fax existing = EmptyString) then Fax newData else Fax existing) ∧
  Email merged = (if decide (Email existing = EmptyString) then Email newData else Email existing) ∧
  Website merged = (if decide (Website existing = EmptyString) then Website newData else Website existing).
Proof.
  unfold mergeCounterparties. cbv zeta.
  split_and!;
    [ merged_field ID | merged_field Name | merged_field Country
    | merged_field Address | merged_field VAT | merged_field SWIFT
    | merged_field IBAN | merged_field Phone | merged_field Fax
    | merged_field Email | merged_field Website ].
Qed.

Lemma fillIfEmpty_same (get : Counterparty → string)
    (set : string → Counterparty → Counterparty) (newData merged : Counterparty) :
  get newData = get merged → fillIfEmpty get set newData merged = merged.
Proof.
  intros Heq. unfold fillIfEmpty. rewrite Heq.
  destruct (decide (get merged = EmptyString)) as [He|He].
  - rewrite (bool_decide_eq_true_2 _ He).
    by rewrite bool_decide_eq_false_2 by (intros H; by apply H).
  - by rewrite (bool_decide_eq_false_2 _ He).
Qed.

(** Merging an entry into itself changes nothing. *)
Lemma mergeCounterparties_self (c : Counterparty) : mergeCounterparties c c = c.
Proof.
  unfold mergeCounterparties. cbv zeta.
  by rewrite !(fillIfEmpty_same _ _ c c).
Qed.

Lemma mergeWithMatched_None (existingCounterparties : list Counterparty)
    (newCounterparty : Counterparty) (matchedID : string) :
  (∀ c, c ∈ existingCounterparties → ID c ≠ matchedID) →
  mergeWithMatched existingCounterparties newCounterparty matchedID = None.
Proof.
  induction existingCounterparties as [|c rest IH]; intros Hno; simpl; [done|].
  rewrite decide_False by (apply Hno; left).
  apply IH. intros c' Hc'. apply Hno. by right.
Qed.

(** With an empty registry no request is made and the answer is "no
    match". *)
Lemma FindCounterparty_empty
    (client : list Counterparty → Counterparty → ChatReply MatchResponse)
    (newCounterparty : Counterparty) :
  FindCounterparty client [] newCounterparty = (None, None).
Proof. done. Qed.

(** C6: for every registry that is sent to the matching service and every
    response with matchFound = true whose matchedId is the id of no
    registry entry, FindCounterparty returns the MatchInconsistency error:
    no counterparty and a non-nil error, hence neither "no match" nor a
    merged or made-up entry. *)
Theorem FindCounterparty_unknown_id
    (client : list Counterparty → Counterparty → ChatReply MatchResponse)
    (existingCounterparties : list Counterparty)
    (newCounterparty : Counterparty) (matchedID : string) :
  existingCounterparties ≠ [] →
  client existingCounterparties newCounterparty
    = Answer (mkMatchResponse true matchedID) →
  (∀ c, c ∈ existingCounterparties → ID c ≠ matchedID) →
  FindCounterparty client existingCounterparties newCounterparty
    = (None, Some (MatchInconsistency matchedID)).
Proof.
  intros Hne Hreply Hno. unfold FindCounterparty.
  rewrite decide_False by (by destruct existingCounterparties).
  rewrite Hreply. simpl. by rewrite mergeWithMatched_None.
Qed.

Lemma FindCounterparty_unknown_id_witness :
  FindCounterparty (λ _ _, Answer (mkMatchResponse true "cp-404"))
                   [set_ID "cp-1" acme] acmeInc
  = (None, Some (MatchInconsistency "cp-404")).
Proof.
  apply (FindCounterparty_unknown_id
           (λ _ _, Answer (mkMatchResponse true "cp-404"))
           [set_ID "cp-1" acme] acmeInc "cp-404").
  - discriminate.
  - reflexivity.
  - intros c Hc. apply list_elem_of_singleton in Hc. subst c. discriminate.
Defined.

(** ** Orchestrators: a counterparty whose matching request fails *)

(** A transport failure, an empty reply or an unparseable reply makes
    [FindCounterparty] return an error. *)
Lemma FindCounterparty_unavailable
    (client : list Counterparty → Counterparty → ChatReply MatchResponse)
    (existingCounterparties : list Counterparty)
    (newCounterparty : Counterparty) :
  existingCounterparties ≠ [] →
  (∀ answer, client existingCounterparties newCounterparty ≠ Answer answer) →
  ∃ err, FindCounterparty client existingCounterparties newCounterparty
         = (None, Some err).
Proof.
  intros Hne Hnot. unfold FindCounterparty.
  rewrite decide_False by (by destruct existingCounterparties).
  destruct (client existingCounterparties newCounterparty) as [e| |e c|answer];
    eauto.
  by destruct (Hnot answer).
Qed.

(** The reporter registers such a counterparty exactly as it was extracted,
    identifier included, logs a warning and goes on. *)
Lemma Reporter_collect_matching_fails (w : World) (st : Tally) (res : Result)
    (invoice : Invoice) (matched : option Counterparty) (err : string) :
  ErrorMessage res = EmptyString →
  Invoice_ res = Some invoice →
  FindCounterparty (chatMatching w (length (allResults st)))
                   (existingForSearch st) (InvCounterparty invoice)
    = (matched, Some err) →
  Reporter.collect w st res
  = Done (mkTally
            (allResults st ++ [res])
            (uniqueCounterparties st ++
               [mkUniqueCounterparty (SourceFile res) (InvCounterparty invoice)])
            (existingForSearch st ++ [InvCounterparty invoice])
            (successfulCount st + 1) (errorCount st)
            (logged st ++ ["WARN: Could not match counterparty for "
                           +:+ SourceFile res +:+ ": " +:+ err])).
Proof.
  intros Hok Hinv Hfind. unfold Reporter.collect.
  rewrite decide_False by (intros H; by apply H).
  rewrite Hinv, Hfind. by destruct matched.
Qed.

(** The web job, in the same situation, first gives the counterparty a new
    identifier. *)
Lemma Web_collect_matching_fails (w : World) (st : Tally) (res : Result)
    (invoice : Invoice) (matched : option Counterparty) (err : string) :
  ErrorMessage res = EmptyString →
  Invoice_ res = Some invoice →
  FindCounterparty (chatMatching w (length (allResults st)))
                   (existingForSearch st) (InvCounterparty invoice)
    = (matched, Some err) →
  ∃ st', Web.collect w st res = Done st' ∧
    existingForSearch st'
      = existingForSearch st ++
          [set_ID (uuidNew w (length (uniqueCounterparties st)))
                  (InvCounterparty invoice)] ∧
    logged st'
      = logged st ++ ["WARN: Could not match counterparty for "
                      +:+ SourceFile res +:+ ": " +:+ err].
Proof.
  intros Hok Hinv Hfind. unfold Web.collect.
  rewrite decide_False by (intros H; by apply H).
  rewrite Hinv, Hfind. destruct matched; eexists; split; done.
Qed.

(** C5 fails on the reporter: two files whose counterparties were extracted
    without an identifier are collected while the matching service is
    down.  The second counterparty is registered, a warning is logged and
    the loop goes on, but no identifier is assigned: it enters the registry
    with the empty id, the same id as the entry registered before it. *)
Theorem Reporter_registers_without_identifier :
  Reporter.collectAll worldMatchingDown
    [mkResult "a.pdf" (Some inv1) EmptyString; mkResult "b.pdf" (Some inv2) EmptyString]
  = Done (mkTally
            [mkResult "a.pdf" (Some inv1) EmptyString; mkResult "b.pdf" (Some inv2) EmptyString]
            [mkUniqueCounterparty "a.pdf" acme;
             mkUniqueCounterparty "b.pdf" acmeInc]
            [acme; acmeInc] 2 0
            ["WARN: Could not match counterparty for b.pdf: matching request to OpenAI failed: connection reset"]) ∧
  ID acmeInc = EmptyString ∧ ID acmeInc = ID acme.
Proof. split_and!; [by vm_compute | done | done]. Qed.

(** The web job on the same input registers both under new identifiers. *)
Example Web_registers_with_identifier :
  ∃ st, forEach (Web.collect worldMatchingDown) emptyTally
          [mkResult "a.pdf" (Some inv1) EmptyString; mkResult "b.pdf" (Some inv2) EmptyString]
        = Done st ∧
        ID <$> existingForSearch st
        = [uuidNew worldMatchingDown 0; uuidNew worldMatchingDown 1].
Proof. eexists. split; [reflexivity | done]. Qed.

(** ** The selector on slices: sharing and in-place sorting *)

Lemma SliceStore_elems_length (h : gmap nat (list Z)) (s : SliceStore.slice) :
  SliceStore.well_formed h s →
  length (SliceStore.elems h s) = SliceStore.len s.
Proof.
  intros (arr & Harr & Hcap & Hbound). unfold SliceStore.elems.
  rewrite Harr. simpl. rewrite length_take_le; [done|].
  rewrite length_drop. lia.
Qed.

(** Reading [n] elements at position [lo] of a window just overwritten. *)
Lemma SliceStore_overwrite_read (h : gmap nat (list Z)) (s : SliceStore.slice)
    (vs : list Z) (lo n : nat) :
  SliceStore.well_formed h s →
  length vs = SliceStore.len s →
  (lo + n ≤ SliceStore.len s)%nat →
  take n (drop (SliceStore.offset s + lo)
            (default [] (SliceStore.overwrite h s vs !! SliceStore.array s)))
  = take n (drop lo vs).
Proof.
  intros (arr & Harr & Hcap & Hbound) Hvs Hn. unfold SliceStore.overwrite.
  rewrite lookup_alter_eq, Harr. simpl.
  rewrite drop_app_add' by (rewrite length_take_le; lia).
  rewrite drop_app_le by lia.
  rewrite take_app_le by (rewrite length_drop; lia). done.
Qed.

Lemma SliceStore_elems_overwrite (h : gmap nat (list Z)) (s : SliceStore.slice)
    (vs : list Z) :
  SliceStore.well_formed h s →
  length vs = SliceStore.len s →
  SliceStore.elems (SliceStore.overwrite h s vs) s = vs.
Proof.
  intros Hwf Hvs. unfold SliceStore.elems.
  rewrite <- (Nat.add_0_r (SliceStore.offset s)).
  rewrite SliceStore_overwrite_read by (done || lia).
  rewrite drop_0, take_ge by lia. done.
Qed.

Lemma SliceStore_elems_overwrite_reslice (h : gmap nat (list Z))
    (s : SliceStore.slice) (vs : list Z) (lo hi : nat) :
  SliceStore.well_formed h s →
  length vs = SliceStore.len s →
  (lo ≤ hi ≤ SliceStore.len s)%nat →
  SliceStore.elems (SliceStore.overwrite h s vs) (SliceStore.reslice s lo hi)
  = take (hi - lo) (drop lo vs).
Proof.
  intros Hwf Hvs Hlohi. unfold SliceStore.elems, SliceStore.reslice. simpl.
  by rewrite SliceStore_overwrite_read by (done || lia).
Qed.

(** Elements seen through a slice depend on its own array only. *)
Lemma SliceStore_elems_ext (h h' : gmap nat (list Z)) (s : SliceStore.slice) :
  h' !! SliceStore.array s = h !! SliceStore.array s →
  SliceStore.elems h' s = SliceStore.elems h s.
Proof. intros Heq. unfold SliceStore.elems. by rewrite Heq. Qed.

(** C9: on a slice of 4 or fewer ordinals the selector returns the argument
    slice itself and leaves the store alone, so result and argument share
    their storage.  On a longer slice it sorts the caller's slice in place:
    afterwards the caller reads its own slice in ascending order; the
    selection is returned in a new array, and no other array changes. *)
Theorem SliceStore_selectPagesForAnalysis_aliasing
    (h : gmap nat (list Z)) (pageIndices : SliceStore.slice) :
  SliceStore.well_formed h pageIndices →
  if decide (SliceStore.len pageIndices ≤ 4)%nat then
    SliceStore.selectPagesForAnalysis h pageIndices = (h, pageIndices)
  else
    SliceStore.elems (SliceStore.selectPagesForAnalysis h pageIndices).1
                     pageIndices
      = sort_Ints (SliceStore.elems h pageIndices) ∧
    SliceStore.array (SliceStore.selectPagesForAnalysis h pageIndices).2
      ≠ SliceStore.array pageIndices ∧
    SliceStore.elems (SliceStore.selectPagesForAnalysis h pageIndices).1
                     (SliceStore.selectPagesForAnalysis h pageIndices).2
      = selectPagesForAnalysis (SliceStore.elems h pageIndices) ∧
    ∀ a, a ≠ SliceStore.array pageIndices → is_Some (h !! a) →
         (SliceStore.selectPagesForAnalysis h pageIndices).1 !! a = h !! a.
Proof.
  intros Hwf. unfold SliceStore.selectPagesForAnalysis.
  destruct (decide (SliceStore.len pageIndices ≤ 4)%nat) as [Hle|Hgt]; [done|].
  pose proof (SliceStore_elems_length h pageIndices Hwf) as Hlen.
  unfold SliceStore.allocate, SliceStore.sortInts.
  set (win := SliceStore.elems h pageIndices) in *.
  assert (length (sort_Ints win) = SliceStore.len pageIndices) as Hsorted
    by (by rewrite sort_Ints_length).
  rewrite !SliceStore_elems_overwrite_reslice by (done || lia).
  rewrite Nat.sub_0_r, drop_0.
  replace (SliceStore.len pageIndices - (SliceStore.len pageIndices - 2))%nat
    with 2%nat by lia.
  rewrite (take_ge (drop _ _)) by (rewrite length_drop; lia).
  set (h1 := SliceStore.overwrite h pageIndices (sort_Ints win)).
  set (picked := (foldl addIfNew (foldl addIfNew (∅, []) (take 2 (sort_Ints win)))
                    (drop (SliceStore.len pageIndices - 2) (sort_Ints win))).2).
  assert (selectPagesForAnalysis win = sort_Ints picked) as Hpure.
  { unfold selectPagesForAnalysis.
    rewrite decide_False by lia. by rewrite Hsorted. }
  cbn [fst snd].
  set (a := fresh (dom h1)).
  set (result := SliceStore.mkSlice a 0 (length picked) (length picked)).
  set (h2 := <[a := picked]> h1).
  destruct Hwf as (arr & Harr & Hcap & Hbound).
  assert (is_Some (h1 !! SliceStore.array pageIndices)) as Hown.
  { unfold h1, SliceStore.overwrite. rewrite lookup_alter_eq, Harr. by eexists. }
  assert (a ∉ dom h1) as Hfresh by apply is_fresh.
  assert (a ≠ SliceStore.array pageIndices) as Hne.
  { intros ->. by apply Hfresh, elem_of_dom. }
  assert (SliceStore.well_formed h2 result) as Hwf2.
  { exists picked. unfold h2, result. simpl.
    rewrite lookup_insert_eq. split_and!; [done | lia | lia]. }
  assert (SliceStore.elems h2 result = picked) as Hread.
  { unfold SliceStore.elems, h2, result. simpl.
    rewrite lookup_insert_eq. simpl. by rewrite take_ge. }
  rewrite Hread.
  split_and!.
  - rewrite (SliceStore_elems_ext h1).
    + unfold h1. apply SliceStore_elems_overwrite; [by exists arr | done].
    + unfold SliceStore.overwrite at 1. rewrite lookup_alter_ne by done.
      unfold h2. by rewrite lookup_insert_ne.
  - done.
  - rewrite Hpure. apply SliceStore_elems_overwrite; [done|].
    by rewrite sort_Ints_length.
  - intros a' Ha' Hsome.
    assert (a' ∈ dom h1) as Hin.
    { unfold h1, SliceStore.overwrite. rewrite dom_alter_L.
      by apply elem_of_dom. }
    assert (a ≠ a') as Hne' by (intros ->; done).
    unfold SliceStore.overwrite at 1. simpl.
    rewrite lookup_alter_ne by done.
    unfold h2. rewrite lookup_insert_ne by done.
    unfold h1, SliceStore.overwrite. by rewrite lookup_alter_ne.
Qed.

Lemma SliceStore_selectPagesForAnalysis_aliasing_witness :
  SliceStore.elems
    (SliceStore.selectPagesForAnalysis {[0%nat := [9; 5; 0; 4; 1; 3; 2; 7]]}
       (SliceStore.mkSlice 0 1 6 7)).1
    (SliceStore.mkSlice 0 1 6 7)
    = sort_Ints (SliceStore.elems {[0%nat := [9; 5; 0; 4; 1; 3; 2; 7]]}
                                  (SliceStore.mkSlice 0 1 6 7)) ∧
  SliceStore.array
    (SliceStore.selectPagesForAnalysis {[0%nat := [9; 5; 0; 4; 1; 3; 2; 7]]}
       (SliceStore.mkSlice 0 1 6 7)).2
    ≠ SliceStore.array (SliceStore.mkSlice 0 1 6 7) ∧
  SliceStore.elems
    (SliceStore.selectPagesForAnalysis {[0%nat := [9; 5; 0; 4; 1; 3; 2; 7]]}
       (SliceStore.mkSlice 0 1 6 7)).1
    (SliceStore.selectPagesForAnalysis {[0%nat := [9; 5; 0; 4; 1; 3; 2; 7]]}
       (SliceStore.mkSlice 0 1 6 7)).2
    = selectPagesForAnalysis
        (SliceStore.elems {[0%nat := [9; 5; 0; 4; 1; 3; 2; 7]]}
                          (SliceStore.mkSlice 0 1 6 7)) ∧
  ∀ a, a ≠ SliceStore.array (SliceStore.mkSlice 0 1 6 7) →
       is_Some (({[0%nat := [9; 5; 0; 4; 1; 3; 2; 7]]} : gmap nat (list Z)) !! a) →
       (SliceStore.selectPagesForAnalysis {[0%nat := [9; 5; 0; 4; 1; 3; 2; 7]]}
          (SliceStore.mkSlice 0 1 6 7)).1 !! a
       = ({[0%nat := [9; 5; 0; 4; 1; 3; 2; 7]]} : gmap nat (list Z)) !! a.
Proof.
  apply (SliceStore_selectPagesForAnalysis_aliasing
           {[0%nat := [9; 5; 0; 4; 1; 3; 2; 7]]} (SliceStore.mkSlice 0 1 6 7)).
  exists [9; 5; 0; 4; 1; 3; 2; 7]. split_and!; [reflexivity | simpl; lia | simpl; lia].
Defined.

(** The caller's array before and after the call on a window of six
    ordinals, and the array of the result. *)
Example SliceStore_long_slice :
  map_to_list
    (SliceStore.selectPagesForAnalysis {[0%nat := [9; 5; 0; 4; 1; 3; 2; 7]]}
       (SliceStore.mkSlice 0 1 6 7)).1
  = [(1%nat, [0; 1; 4; 5]); (0%nat, [9; 0; 1; 2; 3; 4; 5; 7])] ∧
  (SliceStore.selectPagesForAnalysis {[0%nat := [9; 5; 0; 4; 1; 3; 2; 7]]}
     (SliceStore.mkSlice 0 1 6 7)).2
  = SliceStore.mkSlice 1 0 4 4.
Proof. split; by vm_compute. Qed.

(** On a window of four ordinals the same header comes back, and a write
    through the result (here: sorting it) is seen through the argument. *)
Example SliceStore_short_slice :
  SliceStore.selectPagesForAnalysis {[0%nat := [9; 5; 0; 4; 1; 3; 2; 7]]}
    (SliceStore.mkSlice 0 1 4 7)
  = ({[0%nat := [9; 5; 0; 4; 1; 3; 2; 7]]}, SliceStore.mkSlice 0 1 4 7) ∧
  SliceStore.elems
    (SliceStore.sortInts {[0%nat := [9; 5; 0; 4; 1; 3; 2; 7]]}
       (SliceStore.selectPagesForAnalysis {[0%nat := [9; 5; 0; 4; 1; 3; 2; 7]]}
          (SliceStore.mkSlice 0 1 4 7)).2)
    (SliceStore.mkSlice 0 1 4 7)
  = [0; 1; 4; 5].
Proof. split; by vm_compute. Qed.

(** ** Sample runs of [ProcessFile] *)

Example ProcessFile_grouping_down :
  ProcessFile worldGroupingDown "scan.pdf" "sk-test" EmptyString us = Done ([inv1], None) ∧
  selectPagesForAnalysis (seqZ 0 (Z.of_nat (length sixPages))) = [0; 1; 4; 5].
Proof. split; by vm_compute. Qed.

Example ProcessFile_unsupported :
  ProcessFile (sampleWorld ".txt" sixPages NoChoices (λ _, NoChoices) (λ _, NoChoices))
              "notes.txt" "sk-test" EmptyString us
  = Done ([], Some "unsupported file type: .txt").
Proof. by vm_compute. Qed.

(** * Further properties *)

(** ** PageSelector: bounds, order and membership of the selection *)

Lemma addIfNew_length (xs : list Z) (st : gmap Z bool * list Z) :
  (length (foldl addIfNew st xs).2 ≤ length st.2 + length xs)%nat.
Proof.
  revert st. induction xs as [|x xs IH]; intros st; simpl; [lia|].
  etransitivity; [apply IH|].
  unfold addIfNew. destruct (negb _); simpl; [|lia].
  rewrite length_app. simpl. lia.
Qed.

Lemma selectPagesForAnalysis_length (l : list Z) :
  (length (selectPagesForAnalysis l) ≤ 4)%nat.
Proof.
  destruct (decide (length l ≤ 4)%nat) as [Hle|Hgt].
  - unfold selectPagesForAnalysis. by rewrite decide_True.
  - destruct (selectPagesForAnalysis_long l) as
      (a & b & mid & c & d & _ & _ & _ & _ & _ & _ & ->); [lia|].
    rewrite sort_Ints_length.
    etransitivity; [apply addIfNew_length|].
    etransitivity; [apply Nat.add_le_mono_r, addIfNew_length|]. simpl. lia.
Qed.

(** X1: whatever the group, the selector returns at most 4 ordinals. *)
Theorem selectPagesForAnalysis_length_bound (pageIndices : list Z) :
  (length (selectPagesForAnalysis pageIndices) ≤ 4)%nat.
Proof. apply selectPagesForAnalysis_length. Qed.

(** X2: the selector never invents a page: every ordinal it returns is an
    ordinal of the group it was given. *)
Theorem selectPagesForAnalysis_subset (pageIndices : list Z) :
  selectPagesForAnalysis pageIndices ⊆ pageIndices.
Proof. intros x. apply selectPagesForAnalysis_elem_of. Qed.

(** X3: selecting is idempotent: a selection is returned unchanged when
    it is selected from again. *)
Theorem selectPagesForAnalysis_idempotent (pageIndices : list Z) :
  selectPagesForAnalysis (selectPagesForAnalysis pageIndices)
  = selectPagesForAnalysis pageIndices.
Proof.
  unfold selectPagesForAnalysis at 1.
  by rewrite decide_True by apply selectPagesForAnalysis_length.
Qed.

Lemma addIfNew_inv_step (st : gmap Z bool * list Z) (idx : Z) :
  addIfNew_inv st →
  addIfNew_inv (addIfNew st idx) ∧ idx ∈ (addIfNew st idx).2 ∧
  ∀ x, x ∈ st.2 → x ∈ (addIfNew st idx).2.
Proof.
  intros [Hnd Hsel]. unfold addIfNew.
  destruct (selected_get st.1 idx) eqn:Hidx; simpl.
  - split_and!; [done | by apply Hsel | done].
  - assert (idx ∉ st.2) as Hnew.
    { intros Hin%Hsel. congruence. }
    split_and!.
    + split; simpl.
      * apply NoDup_app. split_and!; [done | | apply NoDup_singleton].
        intros x Hx ->%list_elem_of_singleton. done.
      * intros x. unfold selected_get. rewrite elem_of_app, list_elem_of_singleton.
        destruct (decide (idx = x)) as [->|Hne].
        -- rewrite lookup_insert_eq. simpl. tauto.
        -- rewrite lookup_insert_ne by done. fold (selected_get st.1 x).
           rewrite Hsel. split; [tauto|]. intros [?|?]; [done | congruence].
    + apply elem_of_app. right. left.
    + intros x Hx. apply elem_of_app. by left.
Qed.

Lemma addIfNew_inv_foldl (xs : list Z) (st : gmap Z bool * list Z) :
  addIfNew_inv st →
  addIfNew_inv (foldl addIfNew st xs) ∧
  ∀ x, x ∈ st.2 ∨ x ∈ xs → x ∈ (foldl addIfNew st xs).2.
Proof.
  revert st. induction xs as [|y xs IH]; intros st Hinv; simpl.
  - split; [done|]. intros x [?|?%elem_of_nil]; done.
  - destruct (addIfNew_inv_step st y Hinv) as (Hinv' & Hy & Hkeep).
    destruct (IH _ Hinv') as [Hfin Hin]. split; [done|].
    intros x [Hx|[->|Hx]%elem_of_cons]; apply Hin; auto.
Qed.

Lemma addIfNew_inv_empty : addIfNew_inv (∅, []).
Proof.
  split; simpl; [apply NoDup_nil_2|]. intros x. unfold selected_get.
  rewrite lookup_empty. simpl. split; [done | by intros ?%elem_of_nil].
Qed.

(** An ascending list without repetition is strictly ascending. *)
Lemma StronglySorted_le_lt (l : list Z) :
  StronglySorted Z.le l → NoDup l → StronglySorted Z.lt l.
Proof.
  induction 1 as [|x l Hl IH Hx]; intros Hnd; [constructor|].
  apply NoDup_cons in Hnd as [Hnotin Hnd].
  constructor; [by apply IH|].
  rewrite Forall_forall in *. intros y Hy.
  specialize (Hx y Hy). assert (x ≠ y) by (intros ->; done). lia.
Qed.

(** X4: on every group of more than 4 ordinals, repetitions allowed, the
    selection is strictly ascending (so free of repetitions), and its
    members are exactly the ordinals at the first two and the last two
    positions of the sorted group; the lowest and the highest ordinal of the
    group are always among them. *)
Theorem selectPagesForAnalysis_long_group (pageIndices : list Z) :
  (4 < length pageIndices)%nat →
  StronglySorted Z.lt (selectPagesForAnalysis pageIndices) ∧
  (∀ x, x ∈ selectPagesForAnalysis pageIndices ↔
        x ∈ take 2 (sort_Ints pageIndices) ∨
        x ∈ drop (length pageIndices - 2) (sort_Ints pageIndices)) ∧
  min1 pageIndices ∈ selectPagesForAnalysis pageIndices ∧
  max1 pageIndices ∈ selectPagesForAnalysis pageIndices.
Proof.
  intros Hlen.
  destruct (selectPagesForAnalysis_long pageIndices) as
    (a & b & mid & c & d & Hs & _ & Hab & Hbc & Hcd & Hbetween & Hsel); [done|].
  rewrite Forall_forall in Hbetween.
  destruct (addIfNew_inv_foldl [a; b] _ addIfNew_inv_empty) as [Hinv1 Hin1].
  destruct (addIfNew_inv_foldl [c; d] _ Hinv1) as [[Hnd _] Hin2].
  assert (take 2 (sort_Ints pageIndices) = [a; b]) as Htake by (by rewrite Hs).
  assert (drop (length pageIndices - 2) (sort_Ints pageIndices) = [c; d])
    as Hdrop.
  { rewrite <- (sort_Ints_length pageIndices), Hs.
    replace (length (a :: b :: mid ++ [c; d]) - 2)%nat
      with (length (a :: b :: mid)) by (simpl; rewrite length_app; simpl; lia).
    change (a :: b :: mid ++ [c; d]) with ((a :: b :: mid) ++ [c; d]).
    by rewrite drop_app_length. }
  assert (∀ x, x ∈ selectPagesForAnalysis pageIndices ↔ x ∈ [a; b] ∨ x ∈ [c; d])
    as Hmem.
  { intros x. rewrite Hsel, sort_Ints_elem_of. split.
    - intros [[?%elem_of_nil|?]%addIfNew_elem_of|?]%addIfNew_elem_of; tauto.
    - intros [Hx|Hx]; apply Hin2; [left; apply Hin1|]; tauto. }
  assert (∀ y, y ∈ pageIndices ↔ y = a ∨ y = b ∨ y ∈ mid ∨ y = c ∨ y = d)
    as Hall.
  { intros y. rewrite <- sort_Ints_elem_of, Hs.
    rewrite !elem_of_cons, elem_of_app, !elem_of_cons, elem_of_nil. tauto. }
  split_and!.
  - rewrite Hsel. apply StronglySorted_le_lt; [apply sort_Ints_sorted|].
    by rewrite sort_Ints_Permutation.
  - intros x. by rewrite Htake, Hdrop.
  - replace (min1 pageIndices) with a; [apply Hmem; left; left|].
    symmetry. apply minimum_unique; [apply Hall; by left|].
    intros y [-> | [-> | [Hy | [-> | ->]]]]%Hall; try lia.
    specialize (Hbetween y Hy). lia.
  - replace (max1 pageIndices) with d;
      [apply Hmem; right; right; left|].
    symmetry. apply maximum_unique; [apply Hall; tauto|].
    intros y [-> | [-> | [Hy | [-> | ->]]]]%Hall; try lia.
    specialize (Hbetween y Hy). lia.
Qed.

Lemma selectPagesForAnalysis_long_group_witness :
  StronglySorted Z.lt (selectPagesForAnalysis [1; 1; 7; 3; 1; 7]) ∧
  (∀ x, x ∈ selectPagesForAnalysis [1; 1; 7; 3; 1; 7] ↔
        x ∈ take 2 (sort_Ints [1; 1; 7; 3; 1; 7]) ∨
        x ∈ drop (length [1; 1; 7; 3; 1; 7] - 2) (sort_Ints [1; 1; 7; 3; 1; 7])) ∧
  min1 [1; 1; 7; 3; 1; 7] ∈ selectPagesForAnalysis [1; 1; 7; 3; 1; 7] ∧
  max1 [1; 1; 7; 3; 1; 7] ∈ selectPagesForAnalysis [1; 1; 7; 3; 1; 7].
Proof.
  apply (selectPagesForAnalysis_long_group [1; 1; 7; 3; 1; 7]). simpl. lia.
Defined.

(** X5: on a group of more than 4 ordinals the selection does not depend
    on the order in which the ordinals are listed. *)
Theorem selectPagesForAnalysis_Permutation (l1 l2 : list Z) :
  (4 < length l1)%nat → l1 ≡ₚ l2 →
  selectPagesForAnalysis l1 = selectPagesForAnalysis l2.
Proof.
  intros Hlen Hperm.
  assert (sort_Ints l1 = sort_Ints l2) as Hsort.
  { apply (StronglySorted_unique Z.le); auto using sort_Ints_sorted.
    by rewrite !sort_Ints_Permutation. }
  assert (length l2 = length l1) as Hlen2 by (by rewrite Hperm).
  unfold selectPagesForAnalysis.
  rewrite !decide_False by lia. by rewrite Hsort.
Qed.

Lemma selectPagesForAnalysis_Permutation_witness :
  selectPagesForAnalysis [5; 0; 4; 1; 3; 2]
  = selectPagesForAnalysis [0; 1; 2; 3; 4; 5].
Proof.
  apply (selectPagesForAnalysis_Permutation [5; 0; 4; 1; 3; 2] [0; 1; 2; 3; 4; 5]).
  - simpl. lia.
  - apply (bool_decide_unpack _). vm_compute. exact I.
Defined.

(** ** The pages analysed after a grouping failure *)

Lemma selectPagesForAnalysis_seqZ (n : nat) :
  (4 < n)%nat →
  selectPagesForAnalysis (seqZ 0 (Z.of_nat n))
  = [0; 1; Z.of_nat n - 2; Z.of_nat n - 1].
Proof.
  intros Hn.
  rewrite selectPagesForAnalysis_NoDup
    by (apply NoDup_seqZ || (rewrite length_seqZ; lia)).
  assert (min1 (seqZ 0 (Z.of_nat n)) = 0) as Hmin1.
  { apply minimum_unique; [apply elem_of_seqZ; lia|].
    intros y Hy%elem_of_seqZ. lia. }
  assert (max1 (seqZ 0 (Z.of_nat n)) = Z.of_nat n - 1) as Hmax1.
  { apply maximum_unique; [apply elem_of_seqZ; lia|].
    intros y Hy%elem_of_seqZ. lia. }
  assert (min2 (seqZ 0 (Z.of_nat n)) = 1) as Hmin2.
  { unfold min2. rewrite Hmin1. apply minimum_unique.
    - apply list_elem_of_filter. split; [lia | apply elem_of_seqZ; lia].
    - intros y [Hne Hy%elem_of_seqZ]%list_elem_of_filter. lia. }
  assert (max2 (seqZ 0 (Z.of_nat n)) = Z.of_nat n - 2) as Hmax2.
  { unfold max2. rewrite Hmax1. apply maximum_unique.
    - apply list_elem_of_filter. split; [lia | apply elem_of_seqZ; lia].
    - intros y [Hne Hy%elem_of_seqZ]%list_elem_of_filter. lia. }
  by rewrite Hmin1, Hmin2, Hmax1, Hmax2.
Qed.

(** The first two and the last two elements of a list by index. *)
Lemma pagesAt_ends (imageContents : list PageImage) :
  (4 < length imageContents)%nat →
  pagesAt imageContents
    [0; 1; Z.of_nat (length imageContents) - 2;
     Z.of_nat (length imageContents) - 1]
  = take 2 imageContents ++ drop (length imageContents - 2) imageContents.
Proof.
  intros Hlen.
  destruct imageContents as [|i0 [|i1 rest]]; simpl in Hlen; try lia.
  destruct rest as [|iz rest _] using rev_ind; simpl in Hlen; [lia|].
  destruct rest as [|iy mid _] using rev_ind;
    [rewrite length_app in Hlen; simpl in Hlen; lia|].
  assert ((mid ++ [iy]) ++ [iz] = mid ++ [iy; iz]) as ->
    by (by rewrite <- app_assoc).
  clear Hlen.
  remember (i0 :: i1 :: mid ++ [iy; iz]) as l eqn:Hl.
  assert (length l = (length mid + 4)%nat) as Hlen
    by (subst l; simpl; rewrite length_app; simpl; lia).
  assert (l !! 0%nat = Some i0) as H0 by (by subst l).
  assert (l !! 1%nat = Some i1) as H1 by (by subst l).
  assert (l !! (length mid + 2)%nat = Some iy) as H2.
  { subst l. change (i0 :: i1 :: mid ++ [iy; iz])
      with ((i0 :: i1 :: mid) ++ [iy; iz]).
    rewrite lookup_app_r by (simpl; lia).
    by replace (length mid + 2 - length (i0 :: i1 :: mid))%nat with 0%nat
      by (simpl; lia). }
  assert (l !! (length mid + 3)%nat = Some iz) as H3.
  { subst l. change (i0 :: i1 :: mid ++ [iy; iz])
      with ((i0 :: i1 :: mid) ++ [iy; iz]).
    rewrite lookup_app_r by (simpl; lia).
    by replace (length mid + 3 - length (i0 :: i1 :: mid))%nat with 1%nat
      by (simpl; lia). }
  assert (take 2 l = [i0; i1]) as -> by (by subst l).
  assert (drop (length l - 2) l = [iy; iz]) as ->.
  { rewrite Hlen. subst l.
    change (i0 :: i1 :: mid ++ [iy; iz]) with ((i0 :: i1 :: mid) ++ [iy; iz]).
    apply drop_app_length'. simpl. lia. }
  unfold pagesAt. rewrite Hlen. cbn [fmap list_fmap].
  change (Z.to_nat 0) with 0%nat. change (Z.to_nat 1) with 1%nat.
  replace (Z.to_nat (Z.of_nat (length mid + 4) - 2)) with (length mid + 2)%nat
    by lia.
  replace (Z.to_nat (Z.of_nat (length mid + 4) - 1)) with (length mid + 3)%nat
    by lia.
  by rewrite H0, H1, H2, H3.
Qed.

Lemma pageGroupsFor_fallback (w : World) (imageContents : list PageImage) :
  (groupPagesByInvoice w imageContents).2 ≠ None →
  pageGroupsFor w imageContents
  = {["single_invoice" := seqZ 0 (Z.of_nat (length imageContents))]}.
Proof.
  intros Herr. unfold pageGroupsFor.
  destruct (groupPagesByInvoice w imageContents) as [groups [err|]];
    [apply singleInvoiceGroups_eq | done].
Qed.

Lemma ordinals_in_range_fallback (imageContents : list PageImage) :
  ordinals_in_range imageContents
    {["single_invoice" := seqZ 0 (Z.of_nat (length imageContents))]}.
Proof.
  apply map_Forall_singleton, Forall_forall. intros i Hi%elem_of_seqZ. lia.
Qed.

(** X6: when grouping fails on a document of more than 4 pages, a single
    detailed analysis is requested, on the first two and the last two page
    images in page order; ProcessFile returns its invoice, or no invoice if
    it fails, with a nil error. *)
Theorem ProcessFile_fallback_long_document (w : World)
    (filePath apiKey popplerPath : string) (myCompany : Counterparty)
    (imageContents : list PageImage) :
  loadImages w filePath popplerPath = (imageContents, None) →
  (4 < length imageContents)%nat →
  (groupPagesByInvoice w imageContents).2 ≠ None →
  ProcessFile w filePath apiKey popplerPath myCompany
  = Done (match analyzeInvoicePages w 0
                  (take 2 imageContents
                   ++ drop (length imageContents - 2) imageContents)
                  myCompany with
          | (Some invoice, None) => [invoice]
          | _ => []
          end, None).
Proof.
  intros Hload Hlen Herr.
  erewrite ProcessFile_in_range;
    [| done | intros ->; simpl in Hlen; lia |].
  - rewrite pageGroupsFor_fallback, rangeOrder_singleton by done.
    simpl. unfold groupInvoice. simpl.
    rewrite selectPagesForAnalysis_seqZ, pagesAt_ends by done.
    by destruct (analyzeInvoicePages w 0 _ myCompany) as [[?|] [?|]].
  - rewrite pageGroupsFor_fallback by done. apply ordinals_in_range_fallback.
Qed.

Lemma ProcessFile_fallback_long_document_witness :
  ProcessFile worldGroupingDown "scan.pdf" "sk-test" EmptyString us
  = Done (match analyzeInvoicePages worldGroupingDown 0
                  (take 2 sixPages ++ drop (length sixPages - 2) sixPages)
                  us with
          | (Some invoice, None) => [invoice]
          | _ => []
          end, None).
Proof.
  apply (ProcessFile_fallback_long_document worldGroupingDown
           "scan.pdf" "sk-test" EmptyString us sixPages).
  - reflexivity.
  - simpl. lia.
  - simpl. discriminate.
Defined.

(** ** ProcessFile: which failures surface, and how *)

(** X7: ProcessFile returns an error value only from its first step: when
    the file type is unsupported, rendering or reading fails, or no page
    comes out.  It then returns no invoice.  Once the pages are loaded,
    neither a grouping failure nor an analysis failure is ever returned as
    an error. *)
Theorem ProcessFile_error_iff (w : World)
    (filePath apiKey popplerPath : string) (myCompany : Counterparty)
    (invoices : list Invoice) (err : string) :
  ProcessFile w filePath apiKey popplerPath myCompany
    = Done (invoices, Some err)
  ↔ invoices = [] ∧
    ((loadImages w filePath popplerPath).2 = Some err ∨
     (loadImages w filePath popplerPath = ([], None) ∧
      err = "no images found to process")).
Proof.
  unfold ProcessFile.
  destruct (loadImages w filePath popplerPath) as [imageContents [e|]]; simpl.
  - split.
    + intros [= <- <-]. split; [done | by left].
    + intros [-> [[= ->]|[[=] _]]]. done.
  - destruct (decide (length imageContents = 0%nat)) as [Hz|Hnz].
    + split.
      * intros [= <- <-]. split; [done|]. right.
        by destruct imageContents.
      * intros [-> [[=]|[_ ->]]]. done.
    + destruct (analyzeGroups w imageContents myCompany _ 0 []); split;
        try (intros [=]);
        intros [_ [[=]|[[= ->] _]]]; done.
Qed.

Lemma analyzeGroups_selected_in_range (w : World)
    (imageContents : list PageImage) (myCompany : Counterparty)
    (visit : list (string * list Z)) (call : nat) (acc : list Invoice) :
  Forall (λ entry : string * list Z,
            Forall (λ i, 0 ≤ i < Z.of_nat (length imageContents))
                   (selectPagesForAnalysis entry.2))
         visit →
  ∃ invoices,
    analyzeGroups w imageContents myCompany visit call acc = Done invoices ∧
    (length invoices ≤ length acc + length visit)%nat.
Proof.
  intros Hvisit. revert call acc.
  induction Hvisit as [|[invoiceID pageIndices] visit Hin _ IH];
    intros call acc; simpl.
  - exists acc. split; [done | lia].
  - rewrite collectImages_in_range by done. simpl.
    destruct (analyzeInvoicePages_cases w call
                (pagesAt imageContents (selectPagesForAnalysis pageIndices))
                myCompany) as [[invoice ->]|[err ->]].
    + destruct (IH (S call) (acc ++ [invoice])) as (invoices & -> & Hle).
      exists invoices. split; [done|].
      rewrite length_app in Hle. simpl in Hle. lia.
    + destruct (IH (S call) acc) as (invoices & -> & Hle).
      exists invoices. split; [done | lia].
Qed.

Lemma selected_in_range_or_not (imageContents : list PageImage)
    (visit : list (string * list Z)) :
  Forall (λ entry : string * list Z,
            Forall (λ i, 0 ≤ i < Z.of_nat (length imageContents))
                   (selectPagesForAnalysis entry.2)) visit ∨
  Exists (λ entry : string * list Z,
            Exists (λ i, ¬ (0 ≤ i < Z.of_nat (length imageContents)))
                   (selectPagesForAnalysis entry.2)) visit.
Proof.
  induction visit as [|entry visit [IH|IH]].
  - left. constructor.
  - destruct (decide (Forall (λ i, 0 ≤ i < Z.of_nat (length imageContents))
                             (selectPagesForAnalysis entry.2))) as [Hok|Hbad].
    + left. by constructor.
    + right. apply Exists_cons_hd.
      apply not_Forall_Exists in Hbad; [exact Hbad | apply _].
  - right. by apply Exists_cons_tl.
Qed.

(** X8: ProcessFile panics exactly when the pages were loaded and some
    group has, among its selected ordinals, one that is not a page of the
    document; the panic is always the out-of-range index, never a nil
    invoice. *)
Theorem ProcessFile_fault_iff (w : World)
    (filePath apiKey popplerPath : string) (myCompany : Counterparty)
    (msg : string) :
  ProcessFile w filePath apiKey popplerPath myCompany = Fault msg
  ↔ msg = "index out of range" ∧
    ∃ imageContents,
      loadImages w filePath popplerPath = (imageContents, None) ∧
      imageContents ≠ [] ∧
      Exists (λ entry : string * list Z,
                Exists (λ i, ¬ (0 ≤ i < Z.of_nat (length imageContents)))
                       (selectPagesForAnalysis entry.2))
             (rangeOrder w (pageGroupsFor w imageContents)).
Proof.
  split.
  - unfold ProcessFile.
    destruct (loadImages w filePath popplerPath) as [imageContents [e|]];
      [done|].
    destruct (decide (length imageContents = 0%nat)) as [Hz|Hnz]; [done|].
    destruct (selected_in_range_or_not imageContents
                (rangeOrder w (pageGroupsFor w imageContents))) as [Hok|Hbad].
    + destruct (analyzeGroups_selected_in_range w imageContents myCompany
                  _ 0 [] Hok) as (invoices & -> & _). done.
    + rewrite analyzeGroups_out_of_range by done. intros [= <-].
      split; [done|]. exists imageContents. split_and!; [done | | done].
      intros ->. done.
  - intros (-> & imageContents & Hload & Hne & Hbad).
    by apply (ProcessFile_out_of_range _ _ _ _ _ imageContents).
Qed.

(** X9: ProcessFile never returns more invoices than the grouping has
    groups. *)
Theorem ProcessFile_invoices_bound (w : World)
    (filePath apiKey popplerPath : string) (myCompany : Counterparty)
    (imageContents : list PageImage) (invoices : list Invoice) :
  loadImages w filePath popplerPath = (imageContents, None) →
  ProcessFile w filePath apiKey popplerPath myCompany
    = Done (invoices, None) →
  (length invoices ≤ size (pageGroupsFor w imageContents))%nat.
Proof.
  intros Hload. unfold ProcessFile. rewrite Hload.
  destruct (decide (length imageContents = 0%nat)) as [Hz|Hnz]; [done|].
  destruct (selected_in_range_or_not imageContents
              (rangeOrder w (pageGroupsFor w imageContents))) as [Hok|Hbad].
  - destruct (analyzeGroups_selected_in_range w imageContents myCompany
                _ 0 [] Hok) as (out & -> & Hle).
    intros [= <-]. simpl in Hle.
    by rewrite (rangeOrder_perm w), length_map_to_list in Hle.
  - by rewrite analyzeGroups_out_of_range.
Qed.

Lemma ProcessFile_invoices_bound_witness :
  (length [inv2] ≤ size (pageGroupsFor worldOneGroupFails sixPages))%nat.
Proof.
  apply (ProcessFile_invoices_bound worldOneGroupFails
           "scan.pdf" "sk-test" EmptyString us sixPages [inv2]).
  - reflexivity.
  - vm_compute. reflexivity.
Defined.

(** ** FindCounterparty: what a match is *)

Lemma mergeCounterparties_keeps (existing newData : Counterparty) :
  ID (mergeCounterparties existing newData) = ID existing ∧
  Name (mergeCounterparties existing newData) = Name existing ∧
  Country (mergeCounterparties existing newData) = Country existing ∧
  Address (mergeCounterparties existing newData) = Address existing.
Proof.
  unfold mergeCounterparties. cbv zeta.
  split_and!;
    [ merged_field ID | merged_field Name | merged_field Country
    | merged_field Address ].
Qed.

Lemma mergeWithMatched_Some (existingCounterparties : list Counterparty)
    (newCounterparty : Counterparty) (matchedID : string) (c : Counterparty) :
  mergeWithMatched existingCounterparties newCounterparty matchedID = Some c →
  ∃ before existing after,
    existingCounterparties = before ++ existing :: after ∧
    (∀ x, x ∈ before → ID x ≠ matchedID) ∧
    ID existing = matchedID ∧
    c = mergeCounterparties existing newCounterparty.
Proof.
  induction existingCounterparties as [|e rest IH]; simpl; [done|].
  destruct (decide (ID e = matchedID)) as [Heq|Hne].
  - intros [= <-]. exists [], e, rest. split_and!; try done.
    by intros x ?%elem_of_nil.
  - intros (before & existing & after & -> & Hbefore & Hid & ->)%IH.
    exists (e :: before), existing, after. split_and!; try done.
    intros x [->|Hx]%elem_of_cons; auto.
Qed.

Lemma mergeWithMatched_first (before after : list Counterparty)
    (existing newCounterparty : Counterparty) (matchedID : string) :
  (∀ x, x ∈ before → ID x ≠ matchedID) →
  ID existing = matchedID →
  mergeWithMatched (before ++ existing :: after) newCounterparty matchedID
  = Some (mergeCounterparties existing newCounterparty).
Proof.
  intros Hbefore Hid. induction before as [|e before IH]; simpl.
  - by rewrite decide_True.
  - rewrite decide_False by (apply Hbefore; left).
    apply IH. intros x Hx. apply Hbefore. by right.
Qed.

(** X10: a counterparty returned by FindCounterparty is never made up: it
    comes with a nil error, the service answered matchFound = true, and the
    result is the merge of the new data into the first registry entry
    whose id is the id the service named; it carries that entry's id, name,
    country and address. *)
Theorem FindCounterparty_match_sound
    (client : list Counterparty → Counterparty → ChatReply MatchResponse)
    (existingCounterparties : list Counterparty)
    (newCounterparty matched : Counterparty) (err : option string) :
  FindCounterparty client existingCounterparties newCounterparty
    = (Some matched, err) →
  err = None ∧
  ∃ before existing after,
    existingCounterparties = before ++ existing :: after ∧
    (∀ x, x ∈ before → ID x ≠ ID existing) ∧
    client existingCounterparties newCounterparty
      = Answer (mkMatchResponse true (ID existing)) ∧
    matched = mergeCounterparties existing newCounterparty ∧
    ID matched = ID existing ∧ Name matched = Name existing ∧
    Country matched = Country existing ∧ Address matched = Address existing.
Proof.
  unfold FindCounterparty.
  destruct (decide (length existingCounterparties = 0%nat)); [done|].
  destruct (client existingCounterparties newCounterparty)
    as [e| |e c|[found matchedID]]; try done.
  simpl. destruct found; [|done].
  destruct (mergeWithMatched existingCounterparties newCounterparty matchedID)
    as [c|] eqn:Hmerge; [|done].
  intros [= -> <-]. split; [done|].
  apply mergeWithMatched_Some in Hmerge
    as (before & existing & after & -> & Hbefore & <- & ->).
  exists before, existing, after.
  destruct (mergeCounterparties_keeps existing newCounterparty)
    as (? & ? & ? & ?).
  split_and!; done.
Qed.

Lemma FindCounterparty_match_sound_witness :
  (None : option string) = None ∧
  ∃ before existing after,
    [set_ID "cp-1" acme] = before ++ existing :: after ∧
    (∀ x, x ∈ before → ID x ≠ ID existing) ∧
    Answer (mkMatchResponse true "cp-1")
      = Answer (mkMatchResponse true (ID existing)) ∧
    mergeCounterparties (set_ID "cp-1" acme) acmeInc
      = mergeCounterparties existing acmeInc ∧
    ID (mergeCounterparties (set_ID "cp-1" acme) acmeInc) = ID existing ∧
    Name (mergeCounterparties (set_ID "cp-1" acme) acmeInc) = Name existing ∧
    Country (mergeCounterparties (set_ID "cp-1" acme) acmeInc)
      = Country existing ∧
    Address (mergeCounterparties (set_ID "cp-1" acme) acmeInc)
      = Address existing.
Proof.
  apply (FindCounterparty_match_sound
           (λ _ _, Answer (mkMatchResponse true "cp-1"))
           [set_ID "cp-1" acme] acmeInc
           (mergeCounterparties (set_ID "cp-1" acme) acmeInc) None).
  reflexivity.
Defined.

(** X11: when several registry entries carry the id the service names,
    the first of them in registry order is the one merged and returned. *)
Theorem FindCounterparty_first_match
    (client : list Counterparty → Counterparty → ChatReply MatchResponse)
    (before after : list Counterparty)
    (existing newCounterparty : Counterparty) (matchedID : string) :
  client (before ++ existing :: after) newCounterparty
    = Answer (mkMatchResponse true matchedID) →
  (∀ x, x ∈ before → ID x ≠ matchedID) →
  ID existing = matchedID →
  FindCounterparty client (before ++ existing :: after) newCounterparty
  = (Some (mergeCounterparties existing newCounterparty), None).
Proof.
  intros Hreply Hbefore Hid. unfold FindCounterparty.
  rewrite decide_False by (rewrite length_app; simpl; lia).
  rewrite Hreply. simpl. by rewrite mergeWithMatched_first.
Qed.

Lemma FindCounterparty_first_match_witness :
  FindCounterparty (λ _ _, Answer (mkMatchResponse true EmptyString))
                   ([] ++ acme :: [acmeInc]) acmeInc
  = (Some (mergeCounterparties acme acmeInc), None).
Proof.
  apply (FindCounterparty_first_match
           (λ _ _, Answer (mkMatchResponse true EmptyString))
           [] [acmeInc] acme acmeInc EmptyString).
  - reflexivity.
  - intros x Hx. by apply elem_of_nil in Hx.
  - reflexivity.
Defined.

(** X12: FindCounterparty answers "no match" (no counterparty, nil error)
    in exactly two situations: the registry is empty, or the service was
    asked and answered matchFound = false. *)
Theorem FindCounterparty_no_match_iff
    (client : list Counterparty → Counterparty → ChatReply MatchResponse)
    (existingCounterparties : list Counterparty)
    (newCounterparty : Counterparty) :
  FindCounterparty client existingCounterparties newCounterparty
    = (None, None)
  ↔ existingCounterparties = [] ∨
    ∃ matchedID, client existingCounterparties newCounterparty
                 = Answer (mkMatchResponse false matchedID).
Proof.
  unfold FindCounterparty.
  destruct (decide (length existingCounterparties = 0%nat)) as [Hz|Hnz].
  - split; [|done]. intros _. left. by destruct existingCounterparties.
  - assert (existingCounterparties ≠ []) as Hne by (intros ->; done).
    destruct (client existingCounterparties newCounterparty)
      as [e| |e c|[found matchedID]]; simpl.
    + split; [done|]. intros [?|[? [=]]]; done.
    + split; [done|]. intros [?|[? [=]]]; done.
    + split; [done|]. intros [?|[? [=]]]; done.
    + destruct found.
      * destruct (mergeWithMatched _ _ _); (split; [done|]);
          intros [?|[? [=]]]; done.
      * split; [|done]. intros _. right. by exists matchedID.
Qed.

(** ** mergeCounterparties as an operation *)

Lemma Counterparty_eta (c : Counterparty) :
  c = mkCounterparty (ID c) (Name c) (VAT c) (Country c) (Address c)
        (SWIFT c) (IBAN c) (Phone c) (Fax c) (Email c) (Website c).
Proof. by destruct c. Qed.

(** The merged entry, field by field. *)
Lemma mergeCounterparties_eq (existing newData : Counterparty) :
  mergeCounterparties existing newData
  = mkCounterparty (ID existing) (Name existing)
      (firstNonEmpty (VAT existing) (VAT newData))
      (Country existing) (Address existing)
      (firstNonEmpty (SWIFT existing) (SWIFT newData))
      (firstNonEmpty (IBAN existing) (IBAN newData))
      (firstNonEmpty (Phone existing) (Phone newData))
      (firstNonEmpty (Fax existing) (Fax newData))
      (firstNonEmpty (Email existing) (Email newData))
      (firstNonEmpty (Website existing) (Website newData)).
Proof.
  rewrite (Counterparty_eta (mergeCounterparties existing newData)).
  unfold mergeCounterparties, firstNonEmpty. cbv zeta.
  f_equal;
    [ merged_field ID | merged_field Name | merged_field VAT
    | merged_field Country | merged_field Address | merged_field SWIFT
    | merged_field IBAN | merged_field Phone | merged_field Fax
    | merged_field Email | merged_field Website ].
Qed.

Lemma firstNonEmpty_assoc (a b c : string) :
  firstNonEmpty (firstNonEmpty a b) c = firstNonEmpty a (firstNonEmpty b c).
Proof.
  unfold firstNonEmpty.
  destruct (decide (a = EmptyString)) as [->|Ha].
  - done.
  - by rewrite decide_False.
Qed.

Lemma firstNonEmpty_absorb (a b : string) :
  firstNonEmpty (firstNonEmpty a b) b = firstNonEmpty a b.
Proof.
  unfold firstNonEmpty.
  destruct (decide (a = EmptyString)) as [->|Ha].
  - by destruct (decide (b = EmptyString)).
  - by rewrite decide_False.
Qed.

Lemma firstNonEmpty_fixed (a b : string) :
  firstNonEmpty a b = a ↔ a ≠ EmptyString ∨ b = EmptyString.
Proof.
  unfold firstNonEmpty.
  destruct (decide (a = EmptyString)) as [->|Ha]; [|tauto].
  split; [intros ->; by right | intros [? | ->]; done].
Qed.

(** X13: merging is idempotent: an entry merged with itself is unchanged,
    and merging the same new data a second time changes nothing more. *)
Theorem mergeCounterparties_idempotent (existing newData : Counterparty) :
  mergeCounterparties existing existing = existing ∧
  mergeCounterparties (mergeCounterparties existing newData) newData
  = mergeCounterparties existing newData.
Proof.
  split.
  - unfold mergeCounterparties. cbv zeta.
    by rewrite !(fillIfEmpty_same _ _ existing existing).
  - rewrite (mergeCounterparties_eq (mergeCounterparties existing newData)).
    rewrite (mergeCounterparties_eq existing newData). simpl.
    by rewrite !firstNonEmpty_absorb.
Qed.

(** X14: merging is associative: merging one extraction after another into
    a registry entry gives the same entry as merging the second extraction
    into the first and the outcome into the registry entry. *)
Theorem mergeCounterparties_assoc (a b c : Counterparty) :
  mergeCounterparties (mergeCounterparties a b) c
  = mergeCounterparties a (mergeCounterparties b c).
Proof.
  rewrite (mergeCounterparties_eq (mergeCounterparties a b) c).
  rewrite (mergeCounterparties_eq a (mergeCounterparties b c)).
  rewrite (mergeCounterparties_eq a b), (mergeCounterparties_eq b c). simpl.
  by rewrite !firstNonEmpty_assoc.
Qed.

(** X15: the merge returns the existing entry unchanged exactly when the
    new data has nothing to add: for each of vat, swift, iban, phone, fax,
    email and website, the existing field is filled or the new one is
    empty. *)
Theorem mergeCounterparties_unchanged_iff (existing newData : Counterparty) :
  mergeCounterparties existing newData = existing
  ↔ (VAT existing ≠ EmptyString ∨ VAT newData = EmptyString) ∧
    (SWIFT existing ≠ EmptyString ∨ SWIFT newData = EmptyString) ∧
    (IBAN existing ≠ EmptyString ∨ IBAN newData = EmptyString) ∧
    (Phone existing ≠ EmptyString ∨ Phone newData = EmptyString) ∧
    (Fax existing ≠ EmptyString ∨ Fax newData = EmptyString) ∧
    (Email existing ≠ EmptyString ∨ Email newData = EmptyString) ∧
    (Website existing ≠ EmptyString ∨ Website newData = EmptyString).
Proof.
  rewrite mergeCounterparties_eq.
  rewrite <- !firstNonEmpty_fixed. split.
  - intros Heq.
    split_and!;
      [ apply (f_equal VAT) in Heq | apply (f_equal SWIFT) in Heq
      | apply (f_equal IBAN) in Heq | apply (f_equal Phone) in Heq
      | apply (f_equal Fax) in Heq | apply (f_equal Email) in Heq
      | apply (f_equal Website) in Heq ]; exact Heq.
  - intros (H1 & H2 & H3 & H4 & H5 & H6 & H7).
    rewrite H1, H2, H3, H4, H5, H6, H7.
    symmetry. apply Counterparty_eta.
Qed.

(** ** [cmd/reporter]: workers and the collecting loop *)

Lemma loadImages_error_nonempty (w : World) (filePath popplerPath : string)
    (err : string) :
  (loadImages w filePath popplerPath).2 = Some err → err ≠ EmptyString.
Proof.
  unfold loadImages.
  destruct (decide (extOf w filePath = ".pdf")) as [Hpdf|Hpdf].
  - destruct (pdftoppm w filePath popplerPath) as [imgs [e|]]; simpl; [|done].
    by intros [= <-].
  - destruct (decide (_ ∨ _)) as [Himg|Himg].
    + destruct (osReadFile w filePath) as [content [e|]]; simpl; [|done].
      by intros [= <-].
    + simpl. by intros [= <-].
Qed.

Lemma ProcessFile_error_nonempty (w : World)
    (filePath apiKey popplerPath : string) (myCompany : Counterparty)
    (invoices : list Invoice) (err : string) :
  ProcessFile w filePath apiKey popplerPath myCompany
    = Done (invoices, Some err) →
  err ≠ EmptyString.
Proof.
  unfold ProcessFile.
  destruct (loadImages w filePath popplerPath) as [imageContents [e|]] eqn:Hload.
  - intros [= _ <-].
    apply (loadImages_error_nonempty w filePath popplerPath). by rewrite Hload.
  - destruct (decide (length imageContents = 0%nat)); [by intros [= _ <-]|].
    by destruct (analyzeGroups w imageContents myCompany _ 0 []).
Qed.

(** X16: what a reporter worker sends is complete: it names the file, and
    it carries an invoice exactly when its error message is empty.  The
    invoice is the first one ProcessFile returned; any further invoice of
    the same file is dropped. *)
Theorem Reporter_worker_result (w : World) (apiKey popplerPath : string)
    (myCompany : Counterparty) (f : string) (res : Result) :
  Reporter.worker w apiKey popplerPath myCompany f = Done res →
  SourceFile res = f ∧ resultComplete res ∧
  ∀ invoice, Invoice_ res = Some invoice →
    ∃ others, ProcessFile w f apiKey popplerPath myCompany
              = Done (invoice :: others, None).
Proof.
  unfold Reporter.worker, resultComplete.
  destruct (ProcessFile w f apiKey popplerPath myCompany)
    as [msg|[invoices [err|]]] eqn:Hrun; [done | |].
  - intros [= <-]. simpl. split_and!; [done | | done].
    split; [|by intros [? [=]]].
    intros ->. by apply ProcessFile_error_nonempty in Hrun.
  - destruct invoices as [|invoice0 others]; intros [= <-]; simpl.
    + split_and!; [done | | done]. split; [done | by intros [? [=]]].
    + split_and!; [done | by split; eauto |].
      intros invoice [= <-]. by exists others.
Qed.

Lemma Reporter_worker_result_witness :
  SourceFile (mkResult "scan.pdf" (Some inv2) EmptyString) = "scan.pdf" ∧
  resultComplete (mkResult "scan.pdf" (Some inv2) EmptyString) ∧
  ∀ invoice,
    Invoice_ (mkResult "scan.pdf" (Some inv2) EmptyString) = Some invoice →
    ∃ others, ProcessFile worldOneGroupFails "scan.pdf" "sk-test" EmptyString us
              = Done (invoice :: others, None).
Proof.
  apply (Reporter_worker_result worldOneGroupFails "sk-test" EmptyString us
           "scan.pdf" (mkResult "scan.pdf" (Some inv2) EmptyString)).
  vm_compute. reflexivity.
Defined.

(** One iteration of the reporter's loop, by cases. *)
Lemma Reporter_collect_cases (w : World) (st st' : Tally) (res : Result) :
  Reporter.collect w st res = Done st' →
  (failed res ∧
   st' = mkTally (allResults st ++ [res]) (uniqueCounterparties st)
           (existingForSearch st) (successfulCount st) (errorCount st + 1)
           (logged st)) ∨
  (succeeded res ∧ ∃ invoice, Invoice_ res = Some invoice ∧
   successfulCount st' = successfulCount st + 1 ∧
   errorCount st' = errorCount st ∧
   ((∃ matched,
       FindCounterparty (chatMatching w (length (allResults st)))
         (existingForSearch st) (InvCounterparty invoice)
       = (Some matched, None) ∧
       allResults st'
       = allResults st ++
           [mkResult (SourceFile res)
              (Some (withCounterparty matched invoice)) (ErrorMessage res)] ∧
       uniqueCounterparties st' = uniqueCounterparties st ∧
       existingForSearch st' = existingForSearch st) ∨
    ((∀ matched,
        FindCounterparty (chatMatching w (length (allResults st)))
          (existingForSearch st) (InvCounterparty invoice)
        ≠ (Some matched, None)) ∧
     allResults st' = allResults st ++ [res] ∧
     uniqueCounterparties st'
     = uniqueCounterparties st ++ [registration res invoice] ∧
     existingForSearch st'
     = existingForSearch st ++ [InvCounterparty invoice]))).
Proof.
  unfold Reporter.collect, failed, succeeded.
  destruct (decide (ErrorMessage res ≠ EmptyString)) as [Herr|Hok].
  - intros [= <-]. by left.
  - apply dec_stable in Hok. intros Hrun. right. split; [done|].
    destruct (Invoice_ res) as [invoice|]; [|done].
    exists invoice. split; [done|].
    destruct (FindCounterparty _ _ _) as [[matched|] [err|]];
      injection Hrun as <-; simpl; (split; [done|]); (split; [done|]).
    + right. split_and!; done.
    + left. exists matched. split_and!; done.
    + right. split_and!; done.
    + right. split_and!; done.
Qed.

(** What the reporter's loop has done to the tally after any number of
    results. *)
Lemma Reporter_forEach_facts (w : World) (results : list Result)
    (st0 st : Tally) :
  forEach (Reporter.collect w) st0 results = Done st →
  SourceFile <$> allResults st
    = (SourceFile <$> allResults st0) ++ (SourceFile <$> results) ∧
  ErrorMessage <$> allResults st
    = (ErrorMessage <$> allResults st0) ++ (ErrorMessage <$> results) ∧
  errorCount st = errorCount st0 + Z.of_nat (length (filter failed results)) ∧
  successfulCount st
    = successfulCount st0 + Z.of_nat (length (filter succeeded results)) ∧
  ∃ added,
    uniqueCounterparties st = uniqueCounterparties st0 ++ added ∧
    existingForSearch st = existingForSearch st0 ++ (Counterparty_ <$> added) ∧
    (length added ≤ length (filter succeeded results))%nat ∧
    ∀ u, u ∈ added →
      ∃ res invoice, res ∈ results ∧ succeeded res ∧
                     Invoice_ res = Some invoice ∧
                     u = registration res invoice.
Proof.
  revert st0. induction results as [|res results IH]; intros st0; simpl.
  - intros [= <-]. rewrite !app_nil_r. split_and!; try done; try lia.
    exists []. rewrite !app_nil_r. split_and!; try done.
    by intros u ?%elem_of_nil.
  - destruct (Reporter.collect w st0 res) as [msg|st1] eqn:Hstep; [done|].
    intros (Hsrc & Hmsg & Herr & Hsucc & added & Huniq & Hreg & Hlen & Hfrom)%IH.
    apply Reporter_collect_cases in Hstep
      as [[Hfailed ->]|(Hok & invoice & Hinv & Hs1 & He1 & Hstep)].
    + simpl in *. rewrite !fmap_app, <- !app_assoc in *. simpl in *.
      rewrite (filter_cons_True failed) by done.
      rewrite (filter_cons_False succeeded) by (unfold succeeded; done).
      simpl. split_and!; try done; try lia.
      exists added. split_and!; try done.
      intros u (r & i & Hr & ?)%Hfrom. exists r, i. split; [by right | done].
    + rewrite (filter_cons_False failed) by (unfold failed; intros H; by apply H).
      rewrite (filter_cons_True succeeded) by done. simpl.
      destruct Hstep as [(matched & _ & Hall & Hu & Hr)|(_ & Hall & Hu & Hr)].
      * rewrite Hall, !fmap_app, <- !app_assoc in *. simpl in *.
        rewrite Hu, Hr in *.
        split_and!; try done; try lia.
        exists added. split_and!; try done; try lia.
        intros u (r & i & Hin & ?)%Hfrom. exists r, i. split; [by right | done].
      * rewrite Hall, !fmap_app, <- !app_assoc in *. simpl in *.
        rewrite Hu, Hr, <- !app_assoc in *. simpl in *.
        split_and!; try done; try lia.
        exists (registration res invoice :: added).
        split_and!; try done; [simpl; lia|].
        intros u [->|(r & i & Hin & ?)%Hfrom]%elem_of_cons.
        -- exists res, invoice. split_and!; try done. left.
        -- exists r, i. split; [by right | done].
Qed.

Lemma failed_succeeded_length (results : list Result) :
  (length (filter succeeded results) + length (filter failed results)
   = length results)%nat.
Proof.
  induction results as [|res results IH]; [done|].
  destruct (decide (succeeded res)) as [Hs|Hf].
  - rewrite (filter_cons_True succeeded) by done.
    rewrite (filter_cons_False failed) by (unfold failed; intros H; by apply H).
    simpl. lia.
  - rewrite (filter_cons_False succeeded) by done.
    rewrite (filter_cons_True failed) by done. simpl. lia.
Qed.

(** X17: when the reporter's loop ends, [allResults] lists the incoming
    results in order, one entry each with the same file and error message;
    [errorCount] is the number of results with an error message,
    [successfulCount] the number without, and together they count every
    result. *)
Theorem Reporter_collectAll_tally (w : World) (results : list Result)
    (st : Tally) :
  Reporter.collectAll w results = Done st →
  SourceFile <$> allResults st = SourceFile <$> results ∧
  ErrorMessage <$> allResults st = ErrorMessage <$> results ∧
  errorCount st = Z.of_nat (length (filter failed results)) ∧
  successfulCount st = Z.of_nat (length (filter succeeded results)) ∧
  successfulCount st + errorCount st = Z.of_nat (length results).
Proof.
  intros (Hsrc & Hmsg & Herr & Hsucc & _)%Reporter_forEach_facts.
  simpl in *. pose proof (failed_succeeded_length results).
  split_and!; try done; lia.
Qed.

Lemma Reporter_collectAll_tally_witness :
  SourceFile <$> allResults tallyMatchingDown = SourceFile <$> twoResults ∧
  ErrorMessage <$> allResults tallyMatchingDown
    = ErrorMessage <$> twoResults ∧
  errorCount tallyMatchingDown
    = Z.of_nat (length (filter failed twoResults)) ∧
  successfulCount tallyMatchingDown
    = Z.of_nat (length (filter succeeded twoResults)) ∧
  successfulCount tallyMatchingDown + errorCount tallyMatchingDown
    = Z.of_nat (length twoResults).
Proof.
  apply (Reporter_collectAll_tally worldMatchingDown twoResults
           tallyMatchingDown).
  vm_compute. reflexivity.
Defined.

(** X18: the reporter's registry only ever holds counterparties exactly as
    they were extracted: [existingForSearch] is the list of counterparties
    of [uniqueCounterparties], there are at most as many as successful
    results, and each entry is the file and the unmodified counterparty of
    a successful incoming result.  A merged counterparty is never written
    back into the registry. *)
Theorem Reporter_registry_as_extracted (w : World) (results : list Result)
    (st : Tally) :
  Reporter.collectAll w results = Done st →
  existingForSearch st = Counterparty_ <$> uniqueCounterparties st ∧
  (length (uniqueCounterparties st) ≤ length (filter succeeded results))%nat ∧
  ∀ u, u ∈ uniqueCounterparties st →
    ∃ res invoice, res ∈ results ∧ succeeded res ∧
                   Invoice_ res = Some invoice ∧
                   u = registration res invoice.
Proof.
  intros (_ & _ & _ & _ & added & Hu & Hr & Hlen & Hfrom)%Reporter_forEach_facts.
  simpl in *. subst. split_and!; done.
Qed.

Lemma Reporter_registry_as_extracted_witness :
  existingForSearch tallyMatchingDown
    = Counterparty_ <$> uniqueCounterparties tallyMatchingDown ∧
  (length (uniqueCounterparties tallyMatchingDown)
   ≤ length (filter succeeded twoResults))%nat ∧
  ∀ u, u ∈ uniqueCounterparties tallyMatchingDown →
    ∃ res invoice, res ∈ twoResults ∧ succeeded res ∧
                   Invoice_ res = Some invoice ∧
                   u = registration res invoice.
Proof.
  apply (Reporter_registry_as_extracted worldMatchingDown twoResults
           tallyMatchingDown).
  vm_compute. reflexivity.
Defined.

Lemma Reporter_collect_fault_iff (w : World) (st : Tally) (res : Result)
    (msg : string) :
  Reporter.collect w st res = Fault msg
  ↔ msg = "nil pointer dereference" ∧ hollow res.
Proof.
  unfold Reporter.collect, hollow.
  destruct (decide (ErrorMessage res ≠ EmptyString)) as [Herr|Hok].
  - split; [done|]. intros [_ [? _]]. done.
  - apply dec_stable in Hok.
    destruct (Invoice_ res) as [invoice|].
    + split; [|by intros [_ [_ [=]]]].
      by destruct (FindCounterparty _ _ _) as [[matched|] [err|]].
    + split; [by intros [= <-] | by intros [-> _]].
Qed.

Lemma Reporter_forEach_fault_iff (w : World) (results : list Result)
    (st0 : Tally) (msg : string) :
  forEach (Reporter.collect w) st0 results = Fault msg
  ↔ msg = "nil pointer dereference" ∧ Exists hollow results.
Proof.
  revert st0. induction results as [|res results IH]; intros st0; simpl.
  - split; [done|]. intros [_ Hex]. by inversion Hex.
  - destruct (Reporter.collect w st0 res) as [m|st1] eqn:Hstep.
    + apply Reporter_collect_fault_iff in Hstep as [-> Hhollow].
      split; [intros [= <-]; split; [done | by left] | by intros [-> _]].
    + rewrite IH. split; [intros [-> ?]; split; [done | by right]|].
      intros [-> [Hhollow|?]%Exists_cons]; [|done].
      assert (Reporter.collect w st0 res = Fault "nil pointer dereference")
        as Hfault by (by apply Reporter_collect_fault_iff).
      congruence.
Qed.

(** X19: the reporter's loop panics exactly when some incoming result has
    neither an error message nor an invoice.  Results produced by the
    workers are never of that kind, so on them the loop always runs to its
    end. *)
Theorem Reporter_collectAll_fault_iff (w : World) (results : list Result)
    (msg : string) :
  (Reporter.collectAll w results = Fault msg
   ↔ msg = "nil pointer dereference" ∧ Exists hollow results) ∧
  (Forall resultComplete results →
   ∃ st, Reporter.collectAll w results = Done st).
Proof.
  split; [apply Reporter_forEach_fault_iff|].
  intros Hcomplete.
  destruct (Reporter.collectAll w results) as [m|st] eqn:Hrun; [|by eexists].
  apply Reporter_forEach_fault_iff in Hrun as [_ Hex].
  apply Exists_exists in Hex as (res & Hin & Hmsg & Hnone).
  rewrite Forall_forall in Hcomplete.
  apply (Hcomplete res Hin) in Hmsg as [invoice Hinv]. congruence.
Qed.

(** A returned match answers a positive reply and merges a registry
    entry. *)
Lemma FindCounterparty_Some_inv
    (client : list Counterparty → Counterparty → ChatReply MatchResponse)
    (existingCounterparties : list Counterparty)
    (newCounterparty matched : Counterparty) (err : option string) :
  FindCounterparty client existingCounterparties newCounterparty
    = (Some matched, err) →
  ∃ existing,
    existing ∈ existingCounterparties ∧
    client existingCounterparties newCounterparty
      = Answer (mkMatchResponse true (ID existing)) ∧
    matched = mergeCounterparties existing newCounterparty ∧
    ID matched = ID existing.
Proof.
  unfold FindCounterparty.
  destruct (decide (length existingCounterparties = 0%nat)); [done|].
  destruct (client existingCounterparties newCounterparty)
    as [e| |e c|[found matchedID]]; try done.
  simpl. destruct found; [|done].
  destruct (mergeWithMatched existingCounterparties newCounterparty matchedID)
    as [c|] eqn:Hmerge; [|done].
  intros [= -> <-].
  apply mergeWithMatched_Some in Hmerge
    as (before & existing & after & -> & _ & <- & ->).
  exists existing. split_and!; try done.
  - apply elem_of_app. right. left.
  - apply mergeCounterparties_keeps.
Qed.

Lemma Reporter_forEach_unmatched (w : World) (results : list Result)
    (st0 st : Tally) :
  (∀ k existing newCounterparty matchedID,
     chatMatching w k existing newCounterparty
     ≠ Answer (mkMatchResponse true matchedID)) →
  forEach (Reporter.collect w) st0 results = Done st →
  uniqueCounterparties st = uniqueCounterparties st0 ++ registrations results.
Proof.
  intros Hnever. revert st0.
  induction results as [|res results IH]; intros st0; simpl.
  - intros [= <-]. by rewrite app_nil_r.
  - destruct (Reporter.collect w st0 res) as [msg|st1] eqn:Hstep; [done|].
    intros ->%IH. unfold registrations. simpl.
    apply Reporter_collect_cases in Hstep
      as [[Hfailed ->]|(Hok & invoice & Hinv & _ & _ & Hstep)].
    + by rewrite decide_False by (unfold failed, succeeded in *; done).
    + rewrite decide_True, Hinv by done. simpl.
      destruct Hstep as [(matched & Hfind & _)|(_ & _ & -> & _)].
      * apply FindCounterparty_Some_inv in Hfind as (e & _ & Hreply & _).
        by destruct (Hnever _ _ _ _ Hreply).
      * by rewrite <- app_assoc.
Qed.

(** X20: as long as the matching service never answers matchFound = true
    (it is down, or it finds nothing), the reporter performs no
    deduplication at all: it registers the counterparty of every
    successful result, in order. *)
Theorem Reporter_without_matches (w : World) (results : list Result)
    (st : Tally) :
  (∀ k existing newCounterparty matchedID,
     chatMatching w k existing newCounterparty
     ≠ Answer (mkMatchResponse true matchedID)) →
  Reporter.collectAll w results = Done st →
  uniqueCounterparties st = registrations results ∧
  existingForSearch st = Counterparty_ <$> registrations results.
Proof.
  intros Hnever Hrun.
  pose proof (Reporter_forEach_unmatched w results _ _ Hnever Hrun) as Hu.
  apply Reporter_forEach_facts in Hrun
    as (_ & _ & _ & _ & added & Hadded & Hreg & _).
  simpl in *. subst. split; [done|]. by rewrite Hreg, Hu.
Qed.

Lemma Reporter_without_matches_witness :
  uniqueCounterparties tallyMatchingDown = registrations twoResults ∧
  existingForSearch tallyMatchingDown
    = Counterparty_ <$> registrations twoResults.
Proof.
  apply (Reporter_without_matches worldMatchingDown twoResults
           tallyMatchingDown).
  - intros k existing newCounterparty matchedID. simpl. discriminate.
  - vm_compute. reflexivity.
Defined.

(** ** [cmd/web]: identifiers in the registry *)

Lemma Web_tally_ok_empty (w : World) : Web_tally_ok w emptyTally.
Proof.
  split_and!; [done | done |]. intros res invoice Hin. by apply elem_of_nil in Hin.
Qed.

Lemma Web_collect_ok (w : World) (st st' : Tally) (res : Result) :
  Web_tally_ok w st → Web.collect w st res = Done st' → Web_tally_ok w st'.
Proof.
  intros (Hreg & Hids & Hrep). unfold Web.collect.
  destruct (decide (ErrorMessage res ≠ EmptyString)) as [Herr|Hok].
  - intros [= <-]. split_and!; [done | done |]. simpl.
    intros r i [Hin | ->%list_elem_of_singleton]%elem_of_app; [by apply Hrep|].
    intros Hs. by destruct Herr.
  - destruct (Invoice_ res) as [invoice|]; [|done].
    assert (∀ st'',
      allResults st''
        = allResults st ++
            [mkResult (SourceFile res)
               (Some (withCounterparty
                        (set_ID (uuidNew w (length (uniqueCounterparties st)))
                                (InvCounterparty invoice)) invoice))
               (ErrorMessage res)] →
      uniqueCounterparties st''
        = uniqueCounterparties st ++
            [mkUniqueCounterparty (SourceFile res)
               (set_ID (uuidNew w (length (uniqueCounterparties st)))
                       (InvCounterparty invoice))] →
      existingForSearch st''
        = existingForSearch st ++
            [set_ID (uuidNew w (length (uniqueCounterparties st)))
                    (InvCounterparty invoice)] →
      Web_tally_ok w st'') as Hnew.
    { intros st'' Hall Hu Hr. unfold Web_tally_ok.
      rewrite Hall, Hu, Hr, !fmap_app, length_app, Nat.add_1_r, seq_S, fmap_app.
      simpl. split_and!.
      - by rewrite <- Hreg.
      - by rewrite Hids.
      - intros r i [Hin | ->%list_elem_of_singleton]%elem_of_app Hs Hi.
        + apply elem_of_app. left. by apply (Hrep r i).
        + injection Hi as <-. apply elem_of_app. right. simpl. left. }
    destruct (FindCounterparty _ _ _) as [[matched|] [err|]] eqn:Hfind;
      intros [= <-]; try (by apply Hnew).
    split_and!; [done | done |]. simpl.
    intros r i [Hin | ->%list_elem_of_singleton]%elem_of_app Hs Hi;
      [by apply (Hrep r i)|].
    injection Hi as <-. simpl.
    apply FindCounterparty_Some_inv in Hfind as (e & He & _ & _ & ->).
    by apply list_elem_of_fmap_2.
Qed.

Lemma Web_forEach_ok (w : World) (results : list Result) (st0 st : Tally) :
  Web_tally_ok w st0 →
  forEach (Web.collect w) st0 results = Done st → Web_tally_ok w st.
Proof.
  revert st0. induction results as [|res results IH]; intros st0 Hok; simpl.
  - by intros [= <-].
  - destruct (Web.collect w st0 res) as [msg|st1] eqn:Hstep; [done|].
    apply IH. by eapply Web_collect_ok.
Qed.

(** X21: in the web job the k-th registry entry carries the k-th
    identifier generated; so if the generator never repeats an identifier,
    no two registry entries share an id. *)
Theorem Web_registry_ids_distinct (w : World) (results : list Result)
    (st : Tally) :
  (∀ i j, uuidNew w i = uuidNew w j → i = j) →
  Web.collectAll w results = Done st →
  ID <$> existingForSearch st
    = uuidNew w <$> seq 0 (length (uniqueCounterparties st)) ∧
  NoDup (ID <$> existingForSearch st).
Proof.
  intros Hinj Hrun.
  apply Web_forEach_ok in Hrun as (_ & Hids & _); [|apply Web_tally_ok_empty].
  split; [done|]. rewrite Hids. apply NoDup_fmap_2; [exact Hinj|].
  apply NoDup_seq.
Qed.

(** X22: in the web job every successful result that is recorded names a
    counterparty whose id is the id of a registry entry, whether the
    counterparty was matched or newly registered. *)
Theorem Web_reported_ids_registered (w : World) (results : list Result)
    (st : Tally) (res : Result) (invoice : Invoice) :
  Web.collectAll w results = Done st →
  res ∈ allResults st → succeeded res → Invoice_ res = Some invoice →
  ID (InvCounterparty invoice) ∈ ID <$> existingForSearch st.
Proof.
  intros Hrun.
  apply Web_forEach_ok in Hrun as (_ & _ & Hrep); [|apply Web_tally_ok_empty].
  apply Hrep.
Qed.

Lemma Web_registry_ids_distinct_witness :
  ID <$> existingForSearch webTallyMatchingDown
    = uuidNew worldMatchingDown
        <$> seq 0 (length (uniqueCounterparties webTallyMatchingDown)) ∧
  NoDup (ID <$> existingForSearch webTallyMatchingDown).
Proof.
  apply (Web_registry_ids_distinct worldMatchingDown twoResults
           webTallyMatchingDown).
  - intros i j Heq. simpl in Heq. injection Heq as Heq.
    by apply (inj pretty).
  - vm_compute. reflexivity.
Defined.

Lemma Web_reported_ids_registered_witness :
  ID (InvCounterparty (withCounterparty (set_ID "uuid-1" acmeInc) inv2))
  ∈ ID <$> existingForSearch webTallyMatchingDown.
Proof.
  apply (Web_reported_ids_registered worldMatchingDown twoResults
           webTallyMatchingDown
           (mkResult "b.pdf"
              (Some (withCounterparty (set_ID "uuid-1" acmeInc) inv2))
              EmptyString)).
  - vm_compute. reflexivity.
  - right. left.
  - reflexivity.
  - reflexivity.
Defined.

(** ** [cmd/web]: the job store *)


(** X23: the three store helpers ([addLog], [incrementProcessedCount],
    [setJobError]) never create or delete a job and never touch a job
    other than the one named; on an unknown job id they leave the store as
    it is. *)
Theorem Web_store_call_frame (jobs : gmap string Web.Job)
    (c : Web.StoreCall) :
  dom (Web.call jobs c) = dom jobs ∧
  (∀ other,
     other ≠ match c with
             | Web.CallAddLog jobID _ => jobID
             | Web.CallIncrementProcessedCount jobID => jobID
             | Web.CallSetJobError jobID _ => jobID
             end →
     Web.call jobs c !! other = jobs !! other) ∧
  (jobs !! match c with
           | Web.CallAddLog jobID _ => jobID
           | Web.CallIncrementProcessedCount jobID => jobID
           | Web.CallSetJobError jobID _ => jobID
           end = None →
   Web.call jobs c = jobs).
Proof.
  destruct c as [target message|target|target errorMsg]; simpl;
    unfold Web.addLog, Web.incrementProcessedCount, Web.setJobError;
    destruct (jobs !! target) as [t|] eqn:Htarget;
    (split_and!; [| |done || by intros]);
    try done;
    try (by apply dom_insert_lookup_L);
    intros other Hne; by rewrite lookup_insert_ne.
Qed.




(** ** PageRenderer *)

Lemma String_leb_trans (a b c : string) :
  String.leb a b = true → String.leb b c = true → String.leb a c = true.
Proof.
  unfold String.leb. revert b c.
  induction a as [|x a IH]; intros [|y b] [|z c]; simpl; try done.
  unfold Ascii.compare.
  destruct (N.compare_spec (Ascii.N_of_ascii x) (Ascii.N_of_ascii y)) as [Hxy|Hxy|Hxy],
           (N.compare_spec (Ascii.N_of_ascii y) (Ascii.N_of_ascii z)) as [Hyz|Hyz|Hyz],
           (N.compare_spec (Ascii.N_of_ascii x) (Ascii.N_of_ascii z)) as [Hxz|Hxz|Hxz];
    try done; try lia.
  apply IH.
Qed.

#[global] Instance nameLe_total : Total Renderer.nameLe.
Proof. intros a b. apply String.leb_total. Qed.

#[global] Instance nameLe_trans : Transitive Renderer.nameLe.
Proof. intros a b c. apply String_leb_trans. Qed.

Lemma sortByName_Permutation (files : list Renderer.DirEntry) :
  Renderer.sortByName files ≡ₚ files.
Proof. apply merge_sort_Permutation. Qed.

Lemma sortByName_sorted (files : list Renderer.DirEntry) :
  StronglySorted Renderer.nameLe (Renderer.sortByName files).
Proof. apply (StronglySorted_merge_sort Renderer.nameLe). Qed.

Lemma StronglySorted_filter {A} (R : relation A) (P : A → Prop)
    `{∀ x, Decision (P x)} (l : list A) :
  StronglySorted R l → StronglySorted R (filter P l).
Proof.
  induction 1 as [|x l Hl IH Hx]; [constructor|].
  rewrite filter_cons. destruct (decide (P x)); [|done].
  constructor; [done|]. apply Forall_forall. intros y [_ Hy]%list_elem_of_filter.
  rewrite Forall_forall in Hx. by apply Hx.
Qed.

Lemma readPages_Some (fs : Renderer.FileSystem) (tempDir : string)
    (files : list Renderer.DirEntry) (acc images : list (list Byte.byte)) :
  Renderer.readPages fs tempDir files acc = (images, None) →
  images
  = acc ++ ((λ name, (Renderer.ReadFile fs (Renderer.Join fs tempDir name)).1)
            <$> (Renderer.EntryName
                 <$> filter (λ file, Renderer.isPage file = true) files)).
Proof.
  revert acc. induction files as [|file files IH]; intros acc; simpl.
  - intros [= <-]. by rewrite app_nil_r.
  - rewrite filter_cons.
    destruct (Renderer.isPage file) eqn:Hpage.
    + rewrite decide_True by done.
      destruct (Renderer.ReadFile fs _) as [content [err|]] eqn:Hread; [done|].
      intros ->%IH. simpl. rewrite Hread. simpl. by rewrite <- app_assoc.
    + rewrite decide_False by done. apply IH.
Qed.

(** X25: when convertPDFToImages succeeds it returns at least one page;
    the pages are the contents of the entries of the temp directory that
    are regular files named "*.png", one page per such entry, read in
    ascending byte-wise order of their names. *)
Theorem Renderer_convertPDFToImages_pages (fs : Renderer.FileSystem)
    (pdfPath popplerBinPath : string) (images : list (list Byte.byte)) :
  Renderer.convertPDFToImages fs pdfPath popplerBinPath = (images, None) →
  images ≠ [] ∧
  ∃ tempDir files,
    Renderer.MkdirTemp fs = (tempDir, None) ∧
    Renderer.ReadDir fs tempDir = (files, None) ∧
    images = (λ name, (Renderer.ReadFile fs (Renderer.Join fs tempDir name)).1)
             <$> Renderer.pageNames files ∧
    length images
      = length (filter (λ file, Renderer.isPage file = true) files) ∧
    StronglySorted (λ a b, String.leb a b = true) (Renderer.pageNames files).
Proof.
  unfold Renderer.convertPDFToImages.
  destruct (Renderer.MkdirTemp fs) as [tempDir [e|]]; [done|].
  destruct (Renderer.CombinedOutput fs _ pdfPath _) as [output [e|]]; [done|].
  destruct (Renderer.ReadDir fs tempDir) as [files [e|]] eqn:Hdir; [done|].
  destruct (Renderer.readPages fs tempDir (Renderer.sortByName files) [])
    as [read [e|]] eqn:Hread; [done|].
  destruct (decide (length read = 0%nat)) as [Hz|Hnz]; [done|].
  intros [= <-]. split; [by destruct read|].
  exists tempDir, files. apply readPages_Some in Hread. simpl in Hread.
  split_and!; [done | done | done | |].
  - rewrite Hread, !length_fmap. by rewrite sortByName_Permutation.
  - unfold Renderer.pageNames.
    apply (StronglySorted_fmap _ Renderer.nameLe); [done|].
    apply StronglySorted_filter, sortByName_sorted.
Qed.

Lemma Renderer_convertPDFToImages_pages_witness :
  [[Byte.x89; Byte.x50]; [Byte.x89; Byte.x50]; [Byte.x89; Byte.x50]] ≠ [] ∧
  ∃ tempDir files,
    Renderer.MkdirTemp sampleFileSystem = (tempDir, None) ∧
    Renderer.ReadDir sampleFileSystem tempDir = (files, None) ∧
    [[Byte.x89; Byte.x50]; [Byte.x89; Byte.x50]; [Byte.x89; Byte.x50]]
    = (λ name, (Renderer.ReadFile sampleFileSystem
                  (Renderer.Join sampleFileSystem tempDir name)).1)
      <$> Renderer.pageNames files ∧
    length [[Byte.x89; Byte.x50]; [Byte.x89; Byte.x50]; [Byte.x89; Byte.x50]]
      = length (filter (λ file, Renderer.isPage file = true) files) ∧
    StronglySorted (λ a b, String.leb a b = true) (Renderer.pageNames files).
Proof.
  apply (Renderer_convertPDFToImages_pages sampleFileSystem
           "scan.pdf" EmptyString).
  vm_compute. reflexivity.
Defined.

(** The order is the byte-wise one: page 10 is read before page 2 when the
    names are not zero-padded. *)
Example Renderer_pageNames_sample :
  Renderer.pageNames sampleEntries
  = ["page-1.png"; "page-10.png"; "page-2.png"].
Proof. by vm_compute. Qed.

(** X26: the order in which the directory lists its entries does not
    matter: two listings of the same entries (entry names being unique)
    are sorted into the same list, so the same pages are read in the same
    order. *)
Theorem Renderer_listing_order_irrelevant (fs : Renderer.FileSystem)
    (tempDir : string) (files1 files2 : list Renderer.DirEntry) :
  files1 ≡ₚ files2 →
  NoDup (Renderer.EntryName <$> files1) →
  Renderer.sortByName files1 = Renderer.sortByName files2 ∧
  Renderer.pageNames files1 = Renderer.pageNames files2 ∧
  Renderer.readPages fs tempDir (Renderer.sortByName files1) []
  = Renderer.readPages fs tempDir (Renderer.sortByName files2) [].
Proof.
  intros Hperm Hnames.
  assert (Renderer.sortByName files1 = Renderer.sortByName files2) as Hsort.
  { apply (StronglySorted_unique_strong Renderer.nameLe);
      [| apply sortByName_sorted | apply sortByName_sorted
       | by rewrite !sortByName_Permutation].
    intros a b Ha Hb Hab Hba.
    rewrite sortByName_Permutation in Ha.
    rewrite sortByName_Permutation, <- Hperm in Hb.
    assert (Renderer.EntryName a = Renderer.EntryName b) as Hname
      by (by apply String.leb_antisym).
    apply list_elem_of_lookup in Ha as [i Hi].
    apply list_elem_of_lookup in Hb as [j Hj].
    assert (i = j) as ->.
    { apply (NoDup_lookup _ i j (Renderer.EntryName a) Hnames);
        rewrite list_lookup_fmap; [by rewrite Hi | by rewrite Hj, Hname]. }
    congruence. }
  unfold Renderer.pageNames. by rewrite Hsort.
Qed.

Lemma Renderer_listing_order_irrelevant_witness :
  Renderer.sortByName sampleEntries
    = Renderer.sortByName (reverse sampleEntries) ∧
  Renderer.pageNames sampleEntries
    = Renderer.pageNames (reverse sampleEntries) ∧
  Renderer.readPages sampleFileSystem "/tmp/invpa-pages-1"
    (Renderer.sortByName sampleEntries) []
  = Renderer.readPages sampleFileSystem "/tmp/invpa-pages-1"
      (Renderer.sortByName (reverse sampleEntries)) [].
Proof.
  apply (Renderer_listing_order_irrelevant sampleFileSystem
           "/tmp/invpa-pages-1" sampleEntries (reverse sampleEntries)).
  - symmetry. apply reverse_Permutation.
  - apply (bool_decide_unpack _). vm_compute. exact I.
Defined.

Lemma convertPDFToImages_nonempty (fs : Renderer.FileSystem)
    (pdfPath popplerBinPath : string) (images : list (list Byte.byte)) :
  Renderer.convertPDFToImages fs pdfPath popplerBinPath = (images, None) →
  images ≠ [].
Proof.
  unfold Renderer.convertPDFToImages.
  destruct (Renderer.MkdirTemp fs) as [tempDir [e|]]; [done|].
  destruct (Renderer.CombinedOutput fs _ pdfPath _) as [output [e|]]; [done|].
  destruct (Renderer.ReadDir fs tempDir) as [files [e|]]; [done|].
  destruct (Renderer.readPages fs tempDir (Renderer.sortByName files) [])
    as [read [e|]]; [done|].
  destruct (decide (length read = 0%nat)) as [Hz|Hnz]; [done|].
  intros [= <-]. by destruct read.
Qed.

Lemma loadImages_rendered (w : World) (fs : Renderer.FileSystem)
    (filePath popplerPath : string) (imageContents : list PageImage)
    (err : option string) :
  (∀ pdfPath popplerBinPath,
     pdftoppm w pdfPath popplerBinPath
     = Renderer.convertPDFToImages fs pdfPath popplerBinPath) →
  loadImages w filePath popplerPath = (imageContents, err) →
  match err with
  | Some e => e ≠ "no images found to process"
  | None => imageContents ≠ []
  end.
Proof.
  intros Hrender. unfold loadImages.
  destruct (decide (extOf w filePath = ".pdf")) as [Hpdf|Hpdf].
  - rewrite Hrender.
    destruct (Renderer.convertPDFToImages fs filePath popplerPath)
      as [images [e|]] eqn:Hconv.
    + by intros [= <- <-].
    + intros [= <- <-]. by apply convertPDFToImages_nonempty in Hconv.
  - destruct (decide (_ ∨ _)) as [Himg|Himg].
    + destruct (osReadFile w filePath) as [content [e|]]; by intros [= <- <-].
    + by intros [= <- <-].
Qed.

(** X27: with PDFs rendered by convertPDFToImages, ProcessFile's own check
    for an empty page list never fires: it never returns the error
    "no images found to process", whatever the file. *)
Theorem ProcessFile_never_without_images (w : World)
    (fs : Renderer.FileSystem) (filePath apiKey popplerPath : string)
    (myCompany : Counterparty) (invoices : list Invoice) :
  (∀ pdfPath popplerBinPath,
     pdftoppm w pdfPath popplerBinPath
     = Renderer.convertPDFToImages fs pdfPath popplerBinPath) →
  ProcessFile w filePath apiKey popplerPath myCompany
  ≠ Done (invoices, Some "no images found to process").
Proof.
  intros Hrender. unfold ProcessFile.
  destruct (loadImages w filePath popplerPath) as [imageContents [e|]] eqn:Hload;
    apply (loadImages_rendered w fs _ _ _ _ Hrender) in Hload.
  - intros [= _ ->]. done.
  - rewrite decide_False by (by destruct imageContents).
    by destruct (analyzeGroups w imageContents myCompany _ 0 []).
Qed.

Lemma ProcessFile_never_without_images_witness :
  ProcessFile worldRendered "scan.pdf" "sk-test" EmptyString us
  ≠ Done ([], Some "no images found to process").
Proof.
  apply (ProcessFile_never_without_images worldRendered sampleFileSystem
           "scan.pdf" "sk-test" EmptyString us []).
  intros pdfPath popplerBinPath. reflexivity.
Defined.
